(** * GMII source and sink of cocotbext-eth: frames, queues and the two
      clocked state machines of [cocotbext/eth/gmii.py].

    The Python classes are embedded as records, their methods as functions.
    A method that can raise returns a [result]; a coroutine's locals
    ([frame], [ifg_cnt]) are fields of the instance record, and one turn of
    the [while True] loop of [_run] is one [step]. *)

From Stdlib Require Import List ZArith Lia Bool.
From Stdlib Require Import Strings.Byte.
Import ListNotations.
Open Scope Z_scope.

(** ** Python exceptions *)

Inductive exn : Type :=
| TypeError
| IndexError
| AttributeError.

Inductive result (A : Type) : Type :=
| Ok (a : A)
| Raise (e : exn).

Arguments Ok {A} a.
Arguments Raise {A} e.

Definition bind {A B : Type} (m : result A) (k : A -> result B) : result B :=
  match m with
  | Ok a => k a
  | Raise e => Raise e
  end.

Notation "x <- m ;; k" := (bind m (fun x => k))
  (at level 61, m at next level, right associativity).
Notation "' p <- m ;; k" := (bind m (fun x => match x with p => k end))
  (at level 61, p pattern, m at next level, right associativity).

(** Truth value of an error marker ([any] tests it). *)
Definition truthy (v : Z) : bool := negb (v =? 0).

(** [any(l)] on a list of markers. *)
Definition any (l : list Z) : bool := existsb truthy l.

(** [l[-1]]: defined on a non-empty list only. *)
Fixpoint last_item {A : Type} (l : list A) : option A :=
  match l with
  | [] => None
  | [x] => Some x
  | _ :: tl => last_item tl
  end.

(** ** GmiiFrame *)

Module GmiiFrame.

Record t : Type := mk {
  data : list byte;
  error : option (list Z);
  rx_sim_time : option Z
}.

(** What [__init__(data, error)] accepts as [data]: another frame, or a
    byte sequence. *)
Inductive arg : Type :=
| OfFrame (f : t)
| OfBytes (l : list byte).

Definition init (a : arg) (err : option (list Z)) : t :=
  match a with
  | OfFrame f => mk (data f) (error f) (rx_sim_time f)
  | OfBytes l => mk l err None
  end.

Section Preamble.
(** [ETH_PREAMBLE] is imported from [constants.py]; its value is taken
    as given. *)
Variable ETH_PREAMBLE : list byte.

Definition from_payload (payload : list byte) : t :=
  init (OfBytes (ETH_PREAMBLE ++ payload)) None.
End Preamble.

Definition get_preamble (f : t) : list byte := firstn 8 (data f).

Definition get_payload (f : t) : list byte := skipn 8 (data f).

(** [__len__] *)
Definition len (f : t) : Z := Z.of_nat (length (data f)).

Definition normalize (f : t) : result t :=
  let n := len f in
  match error f with
  | Some e =>
      match last_item e with
      | None => Raise IndexError
      | Some l =>
          Ok (mk (data f)
                 (Some (firstn (Z.to_nat n) e
                        ++ repeat l (Z.to_nat (n - Z.of_nat (length e)))))
                 (rx_sim_time f))
      end
  | None => Ok (mk (data f) (Some (repeat 0 (Z.to_nat n))) (rx_sim_time f))
  end.

Definition compact (f : t) : result t :=
  match error f with
  | None => Raise TypeError
  | Some e =>
      if any e then Ok f else Ok (mk (data f) None (rx_sim_time f))
  end.


End GmiiFrame.

(** ** The bus: the signals [d], [er], [en], [dv] of the entity.  An
       optional signal that is not wired is [None]. *)

Module Bus.

Record t : Type := mk {
  d : byte;
  er : option Z;
  en : option bool;
  dv : option bool
}.

(** [bus.d <= v] *)
Definition drive_d (b : t) (v : byte) : t := mk v (er b) (en b) (dv b).

(** [if bus.er is not None: bus.er <= v] *)
Definition drive_er (b : t) (v : Z) : t :=
  match er b with
  | None => b
  | Some _ => mk (d b) (Some v) (en b) (dv b)
  end.

(** [bus.en <= v], which is a comparison against [None] when [en] is
    not wired. *)
Definition drive_en (b : t) (v : bool) : result t :=
  match en b with
  | None => Raise TypeError
  | Some _ => Ok (mk (d b) (er b) (Some v) (dv b))
  end.

(** The signal behind [bus.dv] once [__init__] has run
    ([if bus.en is not None: bus.dv = bus.en]). *)
Definition dv_alias (b : t) : option bool :=
  match en b with
  | Some v => Some v
  | None => dv b
  end.

(** Reading the attribute of an optional signal, [bus.er] or [bus.en]:
    cocotb's [Bus] sets an attribute for each signal the entity has and
    none for an optional signal it lacks, so the read raises
    [AttributeError] when the signal is not wired. *)
Definition attr {A : Type} (o : option A) : result A :=
  match o with
  | Some v => Ok v
  | None => Raise AttributeError
  end.

(** The [setimmediatevalue(0)] calls of [GmiiSource.__init__]. *)
Definition source_init (b : t) : t :=
  mk x00
     (option_map (fun _ => 0) (er b))
     (option_map (fun _ => false) (en b))
     (match en b with
      | Some _ => dv b
      | None => option_map (fun _ => false) (dv b)
      end).

End Bus.

(** The [reset] and [enable] arguments of an instance, as sampled in one
    cycle: [None] when the argument was not given. *)
Record Pins : Type := mkPins {
  reset : option bool;
  enable : option bool
}.

(** [self.reset is not None and self.reset.value] *)
Definition reset_asserted (p : Pins) : bool :=
  match reset p with
  | Some v => v
  | None => false
  end.

(** [self.enable is None or self.enable.value] *)
Definition enabled (p : Pins) : bool :=
  match enable p with
  | Some v => v
  | None => true
  end.

(** ** GmiiSource *)

Module GmiiSource.

Record t : Type := mk {
  active : bool;
  queue : list GmiiFrame.t;
  ifg : Z;
  queue_occupancy_bytes : Z;
  queue_occupancy_frames : Z;
  (* locals of [_run] *)
  frame : option GmiiFrame.t;
  ifg_cnt : Z
}.

Definition init : t := mk false [] 12 0 0 None 0.

(** [__init__] on the signals [b] of the entity: the tests
    [if self.bus.er is not None] and [if self.bus.en is not None] read the
    attributes; after the second one [bus.dv] is [bus.en]. *)
Definition construct (b : Bus.t) : result (t * Bus.t) :=
  _ <- Bus.attr (Bus.er b) ;;
  _ <- Bus.attr (Bus.en b) ;;
  Ok (init, Bus.source_init b).

Definition set_ifg (g : Z) (s : t) : t :=
  mk (active s) (queue s) g (queue_occupancy_bytes s)
     (queue_occupancy_frames s) (frame s) (ifg_cnt s).

Definition send (a : GmiiFrame.arg) (s : t) : t :=
  let f := GmiiFrame.init a None in
  mk (active s) (queue s ++ [f]) (ifg s)
     (queue_occupancy_bytes s + GmiiFrame.len f)
     (queue_occupancy_frames s + 1)
     (frame s) (ifg_cnt s).

Definition count (s : t) : Z := Z.of_nat (length (queue s)).

Definition empty (s : t) : bool :=
  match queue s with
  | [] => true
  | _ :: _ => false
  end.

Definition idle (s : t) : bool := empty s && negb (active s).

(** The reset branch of [_run]. *)
Definition on_reset (s : t) (b : Bus.t) : result (t * Bus.t) :=
  let s' := mk false (queue s) (ifg s) (queue_occupancy_bytes s)
               (queue_occupancy_frames s) None 0 in
  b' <- Bus.drive_en (Bus.drive_er (Bus.drive_d b x00) 0) false ;;
  Ok (s', b').

(** The [if ifg_cnt > 0 ... elif frame is None and self.queue ...] part. *)
Definition next_frame (s : t) : result t :=
  if 0 <? ifg_cnt s then
    Ok (mk (active s) (queue s) (ifg s) (queue_occupancy_bytes s)
           (queue_occupancy_frames s) (frame s) (ifg_cnt s - 1))
  else
    match frame s, queue s with
    | None, f :: q =>
        f' <- GmiiFrame.normalize f ;;
        Ok (mk true q (ifg s)
               (queue_occupancy_bytes s - GmiiFrame.len f)
               (queue_occupancy_frames s - 1)
               (Some f') (ifg_cnt s))
    | _, _ => Ok s
    end.

(** [frame.error.pop(0)], guarded by [bus.er is not None]. *)
Definition pop_error (f : GmiiFrame.t) (b : Bus.t)
  : result (option (list Z) * Bus.t) :=
  match Bus.er b with
  | None => Ok (GmiiFrame.error f, b)
  | Some _ =>
      match GmiiFrame.error f with
      | None => Raise AttributeError
      | Some [] => Raise IndexError
      | Some (e :: es) => Ok (Some es, Bus.drive_er b e)
      end
  end.

(** The [if frame is not None ... else ...] part. *)
Definition drive (s : t) (b : Bus.t) : result (t * Bus.t) :=
  match frame s with
  | Some f =>
      match GmiiFrame.data f with
      | [] => Raise IndexError
      | x :: rest =>
          ' (err, b1) <- pop_error f (Bus.drive_d b x) ;;
          b2 <- Bus.drive_en b1 true ;;
          match rest with
          | [] =>
              Ok (mk (active s) (queue s) (ifg s) (queue_occupancy_bytes s)
                     (queue_occupancy_frames s) None (Z.max (ifg s) 1), b2)
          | _ :: _ =>
              Ok (mk (active s) (queue s) (ifg s) (queue_occupancy_bytes s)
                     (queue_occupancy_frames s)
                     (Some (GmiiFrame.mk rest err (GmiiFrame.rx_sim_time f)))
                     (ifg_cnt s), b2)
          end
      end
  | None =>
      b' <- Bus.drive_en (Bus.drive_er (Bus.drive_d b x00) 0) false ;;
      Ok (mk false (queue s) (ifg s) (queue_occupancy_bytes s)
             (queue_occupancy_frames s) (frame s) (ifg_cnt s), b')
  end.

(** One turn of the loop of [_run]. *)
Definition step (p : Pins) (s : t) (b : Bus.t) : result (t * Bus.t) :=
  if reset_asserted p then on_reset s b
  else if enabled p then
    s1 <- next_frame s ;;
    drive s1 b
  else Ok (s, b).

(** The loop over the cycles of [ps], with the bus as driven after each
    clock edge. *)
Fixpoint run (ps : list Pins) (s : t) (b : Bus.t)
  : result (t * Bus.t * list Bus.t) :=
  match ps with
  | [] => Ok (s, b, [])
  | p :: ps' =>
      ' (s1, b1) <- step p s b ;;
      ' (s2, b2, tr) <- run ps' s1 b1 ;;
      Ok (s2, b2, b1 :: tr)
  end.

End GmiiSource.

(** ** GmiiSink *)

Module GmiiSink.

Record t : Type := mk {
  active : bool;
  queue : list GmiiFrame.t;
  sync : bool;
  queue_occupancy_bytes : Z;
  queue_occupancy_frames : Z;
  (* local of [_run] *)
  frame : option GmiiFrame.t
}.

Definition init : t := mk false [] false 0 0 None.

(** [__init__] on the signals [b] of the entity, with the same attribute
    reads as the source's. *)
Definition construct (b : Bus.t) : result t :=
  _ <- Bus.attr (Bus.er b) ;;
  _ <- Bus.attr (Bus.en b) ;;
  Ok init.

Definition recv (s : t) : option GmiiFrame.t * t :=
  match queue s with
  | f :: q =>
      (Some f,
       mk (active s) q (sync s)
          (queue_occupancy_bytes s - GmiiFrame.len f)
          (queue_occupancy_frames s - 1)
          (frame s))
  | [] => (None, s)
  end.

Definition count (s : t) : Z := Z.of_nat (length (queue s)).

Definition empty (s : t) : bool :=
  match queue s with
  | [] => true
  | _ :: _ => false
  end.

Definition idle (s : t) : bool := negb (active s).

(** The start-of-frame / end-of-frame part of [_run]. *)
Definition delimit (now : Z) (dv_val : bool) (s : t) : result t :=
  match frame s with
  | None =>
      if dv_val then
        let f := GmiiFrame.init (GmiiFrame.OfBytes []) (Some []) in
        Ok (mk (active s) (queue s) (sync s) (queue_occupancy_bytes s)
               (queue_occupancy_frames s)
               (Some (GmiiFrame.mk (GmiiFrame.data f) (GmiiFrame.error f)
                                   (Some now))))
      else Ok s
  | Some f =>
      if negb dv_val then
        f' <- GmiiFrame.compact f ;;
        Ok (mk (active s) (queue s ++ [f']) true
               (queue_occupancy_bytes s + GmiiFrame.len f')
               (queue_occupancy_frames s + 1)
               None)
      else Ok s
  end.

(** [frame.data.append(d_val); frame.error.append(er_val)] *)
Definition append (d_val : byte) (er_val : Z) (s : t) : result t :=
  match frame s with
  | Some f =>
      match GmiiFrame.error f with
      | None => Raise AttributeError
      | Some e =>
          Ok (mk (active s) (queue s) (sync s) (queue_occupancy_bytes s)
                 (queue_occupancy_frames s)
                 (Some (GmiiFrame.mk (GmiiFrame.data f ++ [d_val])
                                     (Some (e ++ [er_val]))
                                     (GmiiFrame.rx_sim_time f))))
      end
  | None => Ok s
  end.

(** One turn of the loop of [_run]: the bus is sampled in the read-only
    phase; [now] is [get_sim_time()]. *)
Definition step (p : Pins) (now : Z) (s : t) (b : Bus.t) : result t :=
  if reset_asserted p then
    Ok (mk false (queue s) (sync s) (queue_occupancy_bytes s)
           (queue_occupancy_frames s) None)
  else if enabled p then
    let d_val := Bus.d b in
    match Bus.dv_alias b with
    | None => Raise AttributeError
    | Some dv_val =>
        let er_val := match Bus.er b with None => 0 | Some v => v end in
        s1 <- delimit now dv_val s ;;
        append d_val er_val s1
    end
  else Ok s.

End GmiiSink.

(** ** Driver and monitor on one bus and one clock *)

Module System.

Record Tick : Type := mkTick {
  src_pins : Pins;
  snk_pins : Pins;
  now : Z
}.

Definition t : Type := (GmiiSource.t * Bus.t * GmiiSink.t)%type.

(** One clock cycle: the source drives the bus at the edge, the sink
    samples the driven values in the read-only phase that follows. *)
Definition cycle (k : Tick) (st : t) : result t :=
  let '(src, b, snk) := st in
  ' (src', b') <- GmiiSource.step (src_pins k) src b ;;
  snk' <- GmiiSink.step (snk_pins k) (now k) snk b' ;;
  Ok (src', b', snk').

Fixpoint run (ks : list Tick) (st : t) : result t :=
  match ks with
  | [] => Ok st
  | k :: ks' => st' <- cycle k st ;; run ks' st'
  end.

(** Reset de-asserted and enable true, on both instances. *)
Definition quiet (k : Tick) : Prop :=
  reset_asserted (src_pins k) = false /\ enabled (src_pins k) = true /\
  reset_asserted (snk_pins k) = false /\ enabled (snk_pins k) = true.

End System.

(** ** Occupancy counters *)

Definition total_bytes (q : list GmiiFrame.t) : Z :=
  fold_right (fun f acc => GmiiFrame.len f + acc) 0 q.

(** The counters agree with the queue contents. *)
Definition counters_ok (q : list GmiiFrame.t) (nbytes nframes : Z) : Prop :=
  nbytes = total_bytes q /\ nframes = Z.of_nat (length q).

(** Calls and loop turns that can interleave on a connected pair. *)
Inductive event : Type :=
| EvSend (a : GmiiFrame.arg)
| EvSetIfg (g : Z)
| EvRecv
| EvSourceEdge (p : Pins)
| EvSinkSample (p : Pins) (now : Z).

Definition fire (ev : event) (st : System.t) : result System.t :=
  let '(src, b, snk) := st in
  match ev with
  | EvSend a => Ok (GmiiSource.send a src, b, snk)
  | EvSetIfg g => Ok (GmiiSource.set_ifg g src, b, snk)
  | EvRecv => Ok (src, b, snd (GmiiSink.recv snk))
  | EvSourceEdge p =>
      ' (src', b') <- GmiiSource.step p src b ;;
      Ok (src', b', snk)
  | EvSinkSample p now =>
      snk' <- GmiiSink.step p now snk b ;;
      Ok (src, b, snk')
  end.

(** States reached from freshly constructed instances by any interleaving. *)
Inductive reachable (b0 : Bus.t) : System.t -> Prop :=
| reach_init :
    reachable b0 (GmiiSource.init, Bus.source_init b0, GmiiSink.init)
| reach_fire ev st st' :
    reachable b0 st -> fire ev st = Ok st' -> reachable b0 st'.

(** ** Vocabulary of the properties *)

Definition source_ok (s : GmiiSource.t) : Prop :=
  counters_ok (GmiiSource.queue s) (GmiiSource.queue_occupancy_bytes s)
              (GmiiSource.queue_occupancy_frames s).

Definition sink_ok (s : GmiiSink.t) : Prop :=
  counters_ok (GmiiSink.queue s) (GmiiSink.queue_occupancy_bytes s)
              (GmiiSink.queue_occupancy_frames s).

(** What every reachable source state satisfies: a frame in progress has
    bytes left and keeps [active] set, and [active] is the value last
    driven on [en]. *)
Definition source_inv (s : GmiiSource.t) (b : Bus.t) : Prop :=
  (forall f, GmiiSource.frame s = Some f ->
     GmiiSource.active s = true /\ GmiiFrame.data f <> []) /\
  (forall v, Bus.en b = Some v -> v = GmiiSource.active s).

(** The frame the source is sending has bytes left to drive. *)
Definition mid_transmission (s : GmiiSource.t) : bool :=
  match GmiiSource.frame s with
  | Some f => match GmiiFrame.data f with [] => false | _ :: _ => true end
  | None => false
  end.

(** Reset de-asserted and enable true (or not connected). *)
Definition quiet (p : Pins) : Prop :=
  reset_asserted p = false /\ enabled p = true.

(** The bus once the source has driven valid [v], byte [x] and marker [m]
    on the wires of [b]. *)
Definition beat (b : Bus.t) (v : bool) (x : byte) (m : Z) : Bus.t :=
  Bus.mk x (option_map (fun _ => m) (Bus.er b)) (Some v) (Bus.dv b).

Definition idle_beat (b : Bus.t) : Bus.t := beat b false x00 0.

(** The cycles that carry bytes [xs] with markers [ms]. *)
Fixpoint beats (b : Bus.t) (xs : list byte) (ms : list Z) : list Bus.t :=
  match xs with
  | [] => []
  | x :: xs' => beat b true x (hd 0 ms) :: beats b xs' (tl ms)
  end.

(** The per-byte markers of a frame, as the data model describes them. *)
Definition markers (f : GmiiFrame.t) : list Z :=
  let n := length (GmiiFrame.data f) in
  match GmiiFrame.error f with
  | None => repeat 0 n
  | Some e => firstn n e ++ repeat (last e 0) (n - length e)
  end.

(** A frame the source can send: it has bytes, and its error field is
    absent or a non-empty list. *)
Definition sendable (f : GmiiFrame.t) : Prop :=
  GmiiFrame.data f <> [] /\ GmiiFrame.error f <> Some [].

(** Number of cycles of a trace with valid de-asserted. *)
Definition idle_cycles (tr : list Bus.t) : nat :=
  length (filter (fun b => match Bus.en b with
                           | Some true => false
                           | _ => true
                           end) tr).

(** [b'] has the wires of [b], whatever their values. *)
Definition same_wires (b b' : Bus.t) : Prop :=
  (Bus.er b' = None <-> Bus.er b = None) /\
  (Bus.en b' = None <-> Bus.en b = None) /\
  Bus.dv b' = Bus.dv b.

(** The sink's loop over a trace of driven buses. *)
Fixpoint feed (ks : list System.Tick) (tr : list Bus.t) (snk : GmiiSink.t)
  : result GmiiSink.t :=
  match ks, tr with
  | k :: ks', b :: tr' =>
      snk' <- GmiiSink.step (System.snk_pins k) (System.now k) snk b ;;
      feed ks' tr' snk'
  | _, _ => Ok snk
  end.

Definition sink_quiet (k : System.Tick) : Prop := quiet (System.snk_pins k).

(** The marker the sink samples on a bus driven with marker [m]. *)
Definition sampled_er (b : Bus.t) (m : Z) : Z :=
  match Bus.er b with
  | None => 0
  | Some _ => m
  end.

(** The markers the sink collects from cycles driven with markers [ms]. *)
Definition sampled (b : Bus.t) (ms : list Z) : list Z := map (sampled_er b) ms.

(** The frame the sink enqueues for a sent frame [f] whose first byte it
    sampled at time [t]. *)
Definition received (b : Bus.t) (f : GmiiFrame.t) (t : Z) : GmiiFrame.t :=
  GmiiFrame.mk (GmiiFrame.data f)
    (if any (sampled b (markers f)) then Some (sampled b (markers f)) else None)
    (Some t).

(** The cycles that carry the frames [fs], each followed by [gap] cycles with
    nothing driven. *)
Fixpoint wire (b : Bus.t) (gap : nat) (fs : list GmiiFrame.t) : list Bus.t :=
  match fs with
  | [] => []
  | f :: fs' =>
      beats b (GmiiFrame.data f) (markers f)
      ++ repeat (idle_beat b) gap ++ wire b gap fs'
  end.

Fixpoint wire_cycles (gap : nat) (fs : list GmiiFrame.t) : nat :=
  match fs with
  | [] => 0
  | f :: fs' => length (GmiiFrame.data f) + (gap + wire_cycles gap fs')
  end.

(** [recv()] called [n] times in a row, with what each call returned. *)
Fixpoint recv_n (n : nat) (s : GmiiSink.t)
  : list (option GmiiFrame.t) * GmiiSink.t :=
  match n with
  | O => ([], s)
  | S n' =>
      let (r, s1) := GmiiSink.recv s in
      let (rs, s2) := recv_n n' s1 in
      (r :: rs, s2)
  end.

(** [GmiiSink.wait] up to its first [await]: it returns at once ([false])
    when the queue is not empty, and otherwise clears the event before it
    suspends ([true]). *)
Definition wait_enter (s : GmiiSink.t) : bool * GmiiSink.t :=
  if GmiiSink.empty s then
    (true,
     GmiiSink.mk (GmiiSink.active s) (GmiiSink.queue s) false
       (GmiiSink.queue_occupancy_bytes s)
       (GmiiSink.queue_occupancy_frames s) (GmiiSink.frame s))
  else (false, s).

(** Sink states reached from a fresh sink by turns of its loop on any bus
    values, [recv] calls and [wait] calls. *)
Inductive sink_reach : GmiiSink.t -> Prop :=
| sink_reach_init : sink_reach GmiiSink.init
| sink_reach_step p now b s s' :
    sink_reach s -> GmiiSink.step p now s b = Ok s' -> sink_reach s'
| sink_reach_recv s : sink_reach s -> sink_reach (snd (GmiiSink.recv s))
| sink_reach_wait s : sink_reach s -> sink_reach (snd (wait_enter s)).

(** What a frame in the sink's queue looks like. *)
Definition frame_complete (f : GmiiFrame.t) : Prop :=
  GmiiFrame.data f <> [] /\
  GmiiFrame.rx_sim_time f <> None /\
  (GmiiFrame.error f = None \/
   exists e, GmiiFrame.error f = Some e /\
             length e = length (GmiiFrame.data f) /\ any e = true).

(** What the frame the sink is assembling looks like. *)
Definition frame_growing (f : GmiiFrame.t) : Prop :=
  GmiiFrame.data f <> [] /\
  GmiiFrame.rx_sim_time f <> None /\
  exists e, GmiiFrame.error f = Some e /\
            length e = length (GmiiFrame.data f).

(** The markers of a frame fit the one-bit [er] signal. *)
Definition bit_markers (f : GmiiFrame.t) : Prop :=
  Forall (fun v => v = 0 \/ v = 1) (markers f).

(** * Properties of GmiiFrame *)

Lemma last_item_nil_iff {A : Type} (l : list A) :
  last_item l = None <-> l = [].
Proof.
  induction l as [|x [|y tl] IH]; simpl; split; try congruence.
  intros H. apply IH in H. discriminate.
Qed.

Lemma last_item_last {A : Type} (l : list A) (x d : A) :
  last_item l = Some x -> last l d = x.
Proof.
  induction l as [|y [|z tl] IH]; simpl; intros H; try congruence.
  apply IH. exact H.
Qed.

Lemma any_false_iff (l : list Z) :
  any l = false <-> Forall (fun v => v = 0) l.
Proof.
  unfold any. induction l as [|v l IH]; simpl.
  - split; auto.
  - rewrite orb_false_iff, IH. unfold truthy. rewrite negb_false_iff, Z.eqb_eq.
    split.
    + intros [Hv Hl]. constructor; assumption.
    + intros H. inversion H; subst. auto.
Qed.

Lemma normalize_data (f f' : GmiiFrame.t) :
  GmiiFrame.normalize f = Ok f' -> GmiiFrame.data f' = GmiiFrame.data f.
Proof.
  unfold GmiiFrame.normalize. destruct (GmiiFrame.error f) as [e|].
  - destruct (last_item e); intros H; inversion H; reflexivity.
  - intros H. inversion H. reflexivity.
Qed.

Lemma normalize_len (f f' : GmiiFrame.t) :
  GmiiFrame.normalize f = Ok f' -> GmiiFrame.len f' = GmiiFrame.len f.
Proof.
  intros H. unfold GmiiFrame.len. rewrite (normalize_data _ _ H). reflexivity.
Qed.

(** The error list computed by [normalize] from a present list [e] with
    last item [l], for a frame of [n] bytes. *)
Lemma padded_length (e : list Z) (l : Z) (n : nat) :
  length (firstn (Z.to_nat (Z.of_nat n)) e
          ++ repeat l (Z.to_nat (Z.of_nat n - Z.of_nat (length e)))) = n.
Proof.
  rewrite length_app, length_firstn, repeat_length, Nat2Z.id. lia.
Qed.

Lemma padded_nth (e : list Z) (l : Z) (n i : nat) :
  (i < n)%nat ->
  nth i (firstn (Z.to_nat (Z.of_nat n)) e
         ++ repeat l (Z.to_nat (Z.of_nat n - Z.of_nat (length e)))) 0
  = if (i <? length e)%nat then nth i e 0 else l.
Proof.
  intros Hi. rewrite Nat2Z.id.
  destruct (Nat.ltb_spec i (length e)) as [Hlt|Hge].
  - rewrite app_nth1 by (rewrite length_firstn; lia).
    rewrite nth_firstn. destruct (Nat.ltb_spec i n); [reflexivity | lia].
  - rewrite app_nth2 by (rewrite length_firstn; lia).
    rewrite length_firstn. apply nth_repeat_lt. lia.
Qed.

(** C4: on a frame whose error field is absent or a non-empty list,
    [normalize] returns, leaves [data] (and the time stamp) as they were and
    sets [error] to a list as long as [data]: all zeros when the field was
    absent; otherwise entry [i] is the old entry [i] where there was one and
    the old last entry where there was none, entries past the length of
    [data] being dropped. *)
Theorem normalize_fills_with_last_marker (f : GmiiFrame.t) :
  (GmiiFrame.error f = None \/
   exists e, GmiiFrame.error f = Some e /\ e <> []) ->
  exists e' : list Z,
    GmiiFrame.normalize f
    = Ok (GmiiFrame.mk (GmiiFrame.data f) (Some e') (GmiiFrame.rx_sim_time f)) /\
    length e' = length (GmiiFrame.data f) /\
    (GmiiFrame.error f = None ->
     e' = repeat 0 (length (GmiiFrame.data f))) /\
    (forall e, GmiiFrame.error f = Some e ->
       forall i, (i < length (GmiiFrame.data f))%nat ->
         nth i e' 0 = if (i <? length e)%nat then nth i e 0 else last e 0).
Proof.
  intros [Hnone | [e [He Hne]]]; unfold GmiiFrame.normalize, GmiiFrame.len.
  - rewrite Hnone. exists (repeat 0 (Z.to_nat (Z.of_nat (length (GmiiFrame.data f))))).
    rewrite Nat2Z.id. repeat split.
    + apply repeat_length.
    + intros e He. discriminate.
  - rewrite He. destruct (last_item e) as [l|] eqn:Hl.
    + eexists. split; [reflexivity|]. split; [apply padded_length|]. split.
      * intros H. discriminate.
      * intros e0 He0 i Hi. inversion He0; subst e0.
        rewrite (last_item_last e l 0 Hl). apply padded_nth. exact Hi.
    + apply last_item_nil_iff in Hl. contradiction.
Qed.

Lemma normalize_fills_with_last_marker_witness :
  exists e' : list Z,
    GmiiFrame.normalize (GmiiFrame.mk [x01; x02; x03; x04] (Some [0; 1]) None)
    = Ok (GmiiFrame.mk [x01; x02; x03; x04] (Some e') None) /\
    e' = [0; 1; 1; 1].
Proof.
  destruct (normalize_fills_with_last_marker
              (GmiiFrame.mk [x01; x02; x03; x04] (Some [0; 1]) None))
    as [e' [Hn [Hlen [_ Hnth]]]].
  - right. exists [0; 1]. split; [reflexivity | discriminate].
  - exists e'. split; [exact Hn|].
    simpl in Hn. inversion Hn. reflexivity.
Defined.

(** C7: [compact] on a frame whose error list holds only zero markers sets
    [error] to [None] and keeps [data] and the time stamp; [normalize] on a
    frame without error list sets [error] to a list of zeros as long as
    [data]. *)
Theorem compact_clears_normalize_rebuilds (f : GmiiFrame.t) :
  (forall e, GmiiFrame.error f = Some e -> Forall (fun v => v = 0) e ->
     GmiiFrame.compact f
     = Ok (GmiiFrame.mk (GmiiFrame.data f) None (GmiiFrame.rx_sim_time f))) /\
  (GmiiFrame.error f = None ->
     exists z,
       GmiiFrame.normalize f
       = Ok (GmiiFrame.mk (GmiiFrame.data f) (Some z) (GmiiFrame.rx_sim_time f)) /\
       length z = length (GmiiFrame.data f) /\
       Forall (fun v => v = 0) z).
Proof.
  split.
  - intros e He Hz. unfold GmiiFrame.compact. rewrite He.
    apply any_false_iff in Hz. rewrite Hz. reflexivity.
  - intros Hnone. unfold GmiiFrame.normalize, GmiiFrame.len. rewrite Hnone.
    rewrite Nat2Z.id. eexists. split; [reflexivity|]. split.
    + apply repeat_length.
    + apply Forall_forall. intros v Hv. apply repeat_spec in Hv. exact Hv.
Qed.

Lemma compact_clears_normalize_rebuilds_witness :
  GmiiFrame.compact (GmiiFrame.mk [x0a; x0b] (Some [0; 0]) (Some 7))
  = Ok (GmiiFrame.mk [x0a; x0b] None (Some 7)) /\
  exists z,
    GmiiFrame.normalize (GmiiFrame.mk [x0a; x0b] None (Some 7))
    = Ok (GmiiFrame.mk [x0a; x0b] (Some z) (Some 7)) /\
    length z = 2%nat /\ Forall (fun v => v = 0) z.
Proof.
  split.
  - apply (proj1 (compact_clears_normalize_rebuilds
                    (GmiiFrame.mk [x0a; x0b] (Some [0; 0]) (Some 7)))
             [0; 0]).
    + reflexivity.
    + repeat constructor.
  - apply (proj2 (compact_clears_normalize_rebuilds
                    (GmiiFrame.mk [x0a; x0b] None (Some 7)))).
    reflexivity.
Defined.

(** C9: [compact] on a frame whose error field is [None] raises [TypeError];
    it returns only on a frame whose error field is a list. *)
Theorem compact_without_error_raises (f : GmiiFrame.t) :
  (GmiiFrame.error f = None -> GmiiFrame.compact f = Raise TypeError) /\
  (forall f', GmiiFrame.compact f = Ok f' ->
     exists e, GmiiFrame.error f = Some e).
Proof.
  unfold GmiiFrame.compact. split.
  - intros H. rewrite H. reflexivity.
  - intros f'. destruct (GmiiFrame.error f) as [e|].
    + intros _. exists e. reflexivity.
    + discriminate.
Qed.

Lemma compact_without_error_raises_witness :
  GmiiFrame.compact (GmiiFrame.mk [x01] None None) = Raise TypeError /\
  exists e, GmiiFrame.error (GmiiFrame.mk [x01] (Some [1]) None) = Some e.
Proof.
  split.
  - apply (proj1 (compact_without_error_raises (GmiiFrame.mk [x01] None None))).
    reflexivity.
  - apply (proj2 (compact_without_error_raises
                    (GmiiFrame.mk [x01] (Some [1]) None))
             (GmiiFrame.mk [x01] (Some [1]) None)).
    reflexivity.
Defined.

(** C10: [normalize] on a frame whose error list is present and empty and
    whose data is not empty raises [IndexError]. *)
Theorem normalize_empty_error_raises (f : GmiiFrame.t) :
  GmiiFrame.error f = Some [] ->
  GmiiFrame.data f <> [] ->
  GmiiFrame.normalize f = Raise IndexError.
Proof.
  intros He _. unfold GmiiFrame.normalize. rewrite He. reflexivity.
Qed.

Lemma normalize_empty_error_raises_witness :
  GmiiFrame.normalize (GmiiFrame.mk [x01; x02] (Some []) None)
  = Raise IndexError.
Proof.
  apply normalize_empty_error_raises.
  - reflexivity.
  - discriminate.
Defined.

(** * Occupancy counters of both queues *)

Lemma total_bytes_app (q : list GmiiFrame.t) (f : GmiiFrame.t) :
  total_bytes (q ++ [f]) = total_bytes q + GmiiFrame.len f.
Proof.
  induction q as [|g q IH]; simpl; [lia|]. rewrite IH. lia.
Qed.

Lemma counters_ok_push q nb nf f :
  counters_ok q nb nf ->
  counters_ok (q ++ [f]) (nb + GmiiFrame.len f) (nf + 1).
Proof.
  intros [Hb Hf]. split.
  - rewrite total_bytes_app. lia.
  - rewrite length_app. simpl. lia.
Qed.

Lemma counters_ok_pop q nb nf f :
  counters_ok (f :: q) nb nf ->
  counters_ok q (nb - GmiiFrame.len f) (nf - 1).
Proof.
  intros [Hb Hf]. simpl in *. split; lia.
Qed.

Lemma compact_len (f f' : GmiiFrame.t) :
  GmiiFrame.compact f = Ok f' -> GmiiFrame.len f' = GmiiFrame.len f.
Proof.
  unfold GmiiFrame.compact. destruct (GmiiFrame.error f) as [e|]; [|discriminate].
  destruct (any e); intros H; inversion H; reflexivity.
Qed.

Lemma source_send_ok a s : source_ok s -> source_ok (GmiiSource.send a s).
Proof. intros H. unfold source_ok, GmiiSource.send. simpl. apply counters_ok_push, H. Qed.

Lemma source_next_frame_ok s s' :
  source_ok s -> GmiiSource.next_frame s = Ok s' -> source_ok s'.
Proof.
  unfold GmiiSource.next_frame, source_ok. intros H.
  destruct (0 <? GmiiSource.ifg_cnt s).
  - intros E. inversion E. simpl. exact H.
  - destruct (GmiiSource.frame s) as [g|].
    + intros E. inversion E. subst. exact H.
    + destruct (GmiiSource.queue s) as [|f q] eqn:Hq.
      * intros E. inversion E. subst. rewrite Hq. exact H.
      * destruct (GmiiFrame.normalize f) as [f'|]; simpl; [|discriminate].
        intros E. inversion E. simpl. apply counters_ok_pop, H.
Qed.

Lemma source_drive_queue s b s' b' :
  GmiiSource.drive s b = Ok (s', b') ->
  GmiiSource.queue s' = GmiiSource.queue s /\
  GmiiSource.queue_occupancy_bytes s' = GmiiSource.queue_occupancy_bytes s /\
  GmiiSource.queue_occupancy_frames s' = GmiiSource.queue_occupancy_frames s.
Proof.
  unfold GmiiSource.drive.
  destruct (GmiiSource.frame s) as [f|].
  - destruct (GmiiFrame.data f) as [|x rest]; [discriminate|].
    destruct (GmiiSource.pop_error f (Bus.drive_d b x)) as [[err b1]|]; [|discriminate].
    simpl. destruct (Bus.drive_en b1 true) as [b2|]; [|discriminate].
    simpl. destruct rest; intros E; inversion E; simpl; auto.
  - destruct (Bus.drive_en _ false) as [b2|]; [|discriminate].
    simpl. intros E; inversion E; simpl; auto.
Qed.

Lemma source_step_ok p s b s' b' :
  source_ok s -> GmiiSource.step p s b = Ok (s', b') -> source_ok s'.
Proof.
  unfold GmiiSource.step. intros H.
  destruct (reset_asserted p).
  - unfold GmiiSource.on_reset.
    destruct (Bus.drive_en _ false) as [b2|]; [|discriminate].
    simpl. intros E. inversion E. exact H.
  - destruct (enabled p).
    + destruct (GmiiSource.next_frame s) as [s1|] eqn:Hn; [|discriminate].
      simpl. intros E. apply source_drive_queue in E. destruct E as [Eq [Eb Ef]].
      pose proof (source_next_frame_ok _ _ H Hn) as H1.
      unfold source_ok in *. rewrite Eq, Eb, Ef. exact H1.
    + intros E. inversion E. subst. exact H.
Qed.

Lemma sink_recv_ok s : sink_ok s -> sink_ok (snd (GmiiSink.recv s)).
Proof.
  unfold sink_ok, GmiiSink.recv. intros H.
  destruct (GmiiSink.queue s) as [|f q] eqn:Hq; simpl.
  - rewrite Hq. exact H.
  - apply counters_ok_pop, H.
Qed.

Lemma sink_append_ok u v s s' :
  sink_ok s -> GmiiSink.append u v s = Ok s' -> sink_ok s'.
Proof.
  unfold GmiiSink.append, sink_ok. intros H.
  destruct (GmiiSink.frame s) as [f|].
  - destruct (GmiiFrame.error f); [|discriminate].
    intros E. inversion E. simpl. exact H.
  - intros E. inversion E. subst. exact H.
Qed.

Lemma sink_delimit_ok now dv_val s s' :
  sink_ok s -> GmiiSink.delimit now dv_val s = Ok s' -> sink_ok s'.
Proof.
  unfold GmiiSink.delimit, sink_ok. intros H.
  destruct (GmiiSink.frame s) as [f|], dv_val; simpl;
    try (intros E; inversion E; subst; simpl; exact H).
  destruct (GmiiFrame.compact f) as [f'|]; simpl; [|discriminate].
  intros E. inversion E. simpl. apply counters_ok_push, H.
Qed.

Lemma sink_step_ok p now s b s' :
  sink_ok s -> GmiiSink.step p now s b = Ok s' -> sink_ok s'.
Proof.
  unfold GmiiSink.step. intros H.
  destruct (reset_asserted p).
  - intros E. inversion E. exact H.
  - destruct (enabled p).
    + destruct (Bus.dv_alias b) as [dv_val|]; [|discriminate].
      destruct (GmiiSink.delimit now dv_val s) as [s1|] eqn:Hd; [|discriminate].
      simpl. intros E.
      eapply sink_append_ok; [|exact E]. eapply sink_delimit_ok; eauto.
    + intros E. inversion E. subst. exact H.
Qed.

(** C3: in every state reached from two fresh instances by any interleaving
    of [send], [recv], turns of the source loop (which dequeue) and turns of
    the sink loop (which enqueue), each instance's [queue_occupancy_bytes]
    is the sum of the lengths of the frames in its queue and its
    [queue_occupancy_frames] is their number. *)
Theorem occupancy_counters_track_queues (b0 : Bus.t) (st : System.t) :
  reachable b0 st ->
  let '(src, _, snk) := st in
  (GmiiSource.queue_occupancy_bytes src = total_bytes (GmiiSource.queue src) /\
   GmiiSource.queue_occupancy_frames src
   = Z.of_nat (length (GmiiSource.queue src))) /\
  (GmiiSink.queue_occupancy_bytes snk = total_bytes (GmiiSink.queue snk) /\
   GmiiSink.queue_occupancy_frames snk
   = Z.of_nat (length (GmiiSink.queue snk))).
Proof.
  intros Hr.
  enough (H : source_ok (fst (fst st)) /\ sink_ok (snd st)).
  { destruct st as [[src b] snk]. exact H. }
  induction Hr as [|ev [[src b] snk] st' Hr IH Hf].
  - simpl. split; split; reflexivity.
  - destruct IH as [Hs Hk]. simpl in Hs, Hk.
    destruct ev as [a|g| |p|p now]; simpl in Hf.
    + inversion Hf. simpl. split; [apply source_send_ok, Hs | exact Hk].
    + inversion Hf. simpl. split; [exact Hs | exact Hk].
    + inversion Hf. simpl. split; [exact Hs | apply sink_recv_ok, Hk].
    + destruct (GmiiSource.step p src b) as [[src' b']|] eqn:E; [|discriminate].
      simpl in Hf. inversion Hf. simpl.
      split; [eapply source_step_ok; eauto | exact Hk].
    + destruct (GmiiSink.step p now snk b) as [snk'|] eqn:E; [|discriminate].
      simpl in Hf. inversion Hf. simpl.
      split; [exact Hs | eapply sink_step_ok; eauto].
Qed.

Lemma occupancy_counters_track_queues_witness :
  (2 = total_bytes [GmiiFrame.mk [x01; x02] None None] /\
   1 = Z.of_nat (length [GmiiFrame.mk [x01; x02] None None])) /\
  (0 = total_bytes [] /\ 0 = Z.of_nat (@length GmiiFrame.t [])).
Proof.
  apply (occupancy_counters_track_queues
           (Bus.mk x00 None (Some false) None)
           (GmiiSource.send (GmiiFrame.OfBytes [x01; x02]) GmiiSource.init,
            Bus.source_init (Bus.mk x00 None (Some false) None),
            GmiiSink.init)).
  apply (reach_fire _ (EvSend (GmiiFrame.OfBytes [x01; x02]))
           (GmiiSource.init, Bus.source_init (Bus.mk x00 None (Some false) None),
            GmiiSink.init)).
  - apply reach_init.
  - reflexivity.
Defined.

(** * The source's [active] flag and [idle] *)

Lemma drive_en_inv b v b' :
  Bus.drive_en b v = Ok b' -> Bus.en b' = Some v.
Proof.
  unfold Bus.drive_en. destruct (Bus.en b); [|discriminate].
  intros E. inversion E. reflexivity.
Qed.

Lemma source_step_inv p s b s' b' :
  source_inv s b -> GmiiSource.step p s b = Ok (s', b') -> source_inv s' b'.
Proof.
  unfold GmiiSource.step. intros [Hf He].
  destruct (reset_asserted p).
  - unfold GmiiSource.on_reset.
    destruct (Bus.drive_en _ false) as [b2|] eqn:Hd; [|discriminate].
    simpl. intros E. inversion E. subst. apply drive_en_inv in Hd.
    split; simpl.
    + discriminate.
    + intros v Hv. congruence.
  - destruct (enabled p).
    + destruct (GmiiSource.next_frame s) as [s1|] eqn:Hn; [|discriminate]. simpl.
      assert (H1 : forall f, GmiiSource.frame s1 = Some f ->
                             GmiiSource.active s1 = true).
      { revert Hn. unfold GmiiSource.next_frame.
        destruct (0 <? GmiiSource.ifg_cnt s).
        - intros E; inversion E; simpl. intros f Hfr. apply (Hf f Hfr).
        - destruct (GmiiSource.frame s) as [g|] eqn:Hg.
          + intros E; inversion E; subst. intros f Hfr. apply (Hf g eq_refl).
          + destruct (GmiiSource.queue s) as [|g q].
            * intros E; inversion E; subst. rewrite Hg. discriminate.
            * destruct (GmiiFrame.normalize g); simpl; [|discriminate].
              intros E; inversion E; reflexivity. }
      unfold GmiiSource.drive.
      destruct (GmiiSource.frame s1) as [f|] eqn:Hfr.
      * specialize (H1 f eq_refl).
        destruct (GmiiFrame.data f) as [|x rest]; [discriminate|].
        destruct (GmiiSource.pop_error f (Bus.drive_d b x)) as [[err b1]|];
          [|discriminate].
        simpl. destruct (Bus.drive_en b1 true) as [b2|] eqn:Hd; [|discriminate].
        apply drive_en_inv in Hd. simpl.
        destruct rest as [|y rest]; intros E; inversion E; subst; split; simpl.
        -- discriminate.
        -- intros v Hv. congruence.
        -- intros g Hg. inversion Hg. simpl. split; [exact H1 | discriminate].
        -- intros v Hv. congruence.
      * destruct (Bus.drive_en _ false) as [b2|] eqn:Hd; [|discriminate].
        apply drive_en_inv in Hd. simpl.
        intros E; inversion E; subst; split; simpl.
        -- discriminate.
        -- intros v Hv. congruence.
    + intros E. inversion E. subst. split; assumption.
Qed.

Lemma reachable_source_inv b0 st :
  reachable b0 st -> source_inv (fst (fst st)) (snd (fst st)).
Proof.
  intros Hr. induction Hr as [|ev [[src b] snk] st' Hr IH Hf].
  - simpl. split.
    + discriminate.
    + unfold Bus.source_init. simpl. destruct (Bus.en b0); simpl; congruence.
  - simpl in IH. destruct ev as [a|g| |p|p now]; simpl in Hf.
    + inversion Hf. simpl. exact IH.
    + inversion Hf. simpl. exact IH.
    + inversion Hf. simpl. exact IH.
    + destruct (GmiiSource.step p src b) as [[src' b']|] eqn:E; [|discriminate].
      simpl in Hf. inversion Hf. simpl. eapply source_step_inv; eauto.
    + destruct (GmiiSink.step p now snk b) as [snk'|]; [|discriminate].
      simpl in Hf. inversion Hf. simpl. exact IH.
Qed.

(** C8, as the code has it: in every reachable state [idle()] is true
    exactly when the queue is empty and [active] is clear, [active] being
    the value the source last drove on [en]; and whenever [idle()] is true
    no dequeued frame has bytes left to drive. *)
Theorem idle_iff_queue_empty_and_valid_low (b0 : Bus.t) (st : System.t) :
  reachable b0 st ->
  let '(src, b, _) := st in
  (GmiiSource.idle src = true <->
   GmiiSource.queue src = [] /\ GmiiSource.active src = false) /\
  (forall v, Bus.en b = Some v -> v = GmiiSource.active src) /\
  (GmiiSource.idle src = true -> mid_transmission src = false).
Proof.
  intros Hr. apply reachable_source_inv in Hr.
  destruct st as [[src b] snk]. simpl in Hr. destruct Hr as [Hf He].
  assert (Hi : GmiiSource.idle src = true <->
               GmiiSource.queue src = [] /\ GmiiSource.active src = false).
  { unfold GmiiSource.idle, GmiiSource.empty.
    rewrite andb_true_iff, negb_true_iff.
    destruct (GmiiSource.queue src); split; intros [H1 H2]; split;
      congruence. }
  split; [exact Hi|]. split; [exact He|].
  intros H. apply Hi in H. destruct H as [_ Ha].
  unfold mid_transmission. destruct (GmiiSource.frame src) as [f|]; [|reflexivity].
  destruct (Hf f eq_refl) as [Hact _]. congruence.
Qed.

(** C8 as stated fails: after the clock edge that drives the only byte of a
    one-byte frame the queue is empty and no frame has bytes left, yet
    [idle()] is false. *)
Lemma idle_false_while_last_byte_on_bus :
  exists src b,
    GmiiSource.step (mkPins None None)
      (GmiiSource.send (GmiiFrame.OfBytes [x2a]) GmiiSource.init)
      (Bus.source_init (Bus.mk x00 (Some 0) (Some false) None))
    = Ok (src, b) /\
    reachable (Bus.mk x00 (Some 0) (Some false) None) (src, b, GmiiSink.init) /\
    GmiiSource.queue src = [] /\
    mid_transmission src = false /\
    GmiiSource.idle src = false.
Proof.
  eexists. eexists. split; [reflexivity|]. split.
  - eapply reach_fire with (ev := EvSourceEdge (mkPins None None)).
    + eapply reach_fire with (ev := EvSend (GmiiFrame.OfBytes [x2a])).
      * apply reach_init.
      * reflexivity.
    + reflexivity.
  - repeat split.
Qed.

Lemma idle_iff_queue_empty_and_valid_low_witness :
  (GmiiSource.idle (GmiiSource.mk true [] 12 0 0 None 12) = true <->
   GmiiSource.queue (GmiiSource.mk true [] 12 0 0 None 12) = [] /\
   GmiiSource.active (GmiiSource.mk true [] 12 0 0 None 12) = false) /\
  (forall v, Some true = Some v ->
     v = GmiiSource.active (GmiiSource.mk true [] 12 0 0 None 12)) /\
  (GmiiSource.idle (GmiiSource.mk true [] 12 0 0 None 12) = true ->
   mid_transmission (GmiiSource.mk true [] 12 0 0 None 12) = false).
Proof.
  apply (idle_iff_queue_empty_and_valid_low
           (Bus.mk x00 (Some 0) (Some false) None)
           (GmiiSource.mk true [] 12 0 0 None 12,
            Bus.mk x2a (Some 0) (Some true) None,
            GmiiSink.init)).
  eapply reach_fire with (ev := EvSourceEdge (mkPins None None)).
  - eapply reach_fire with (ev := EvSend (GmiiFrame.OfBytes [x2a])).
    + apply reach_init.
    + reflexivity.
  - reflexivity.
Defined.

(** * What the source drives, cycle by cycle *)

Lemma same_wires_refl b : same_wires b b.
Proof. unfold same_wires. tauto. Qed.

Lemma same_wires_trans b b1 b2 :
  same_wires b b1 -> same_wires b1 b2 -> same_wires b b2.
Proof.
  unfold same_wires. intros [H1 [H2 H3]] [H4 [H5 H6]].
  split; [tauto|]. split; [tauto|]. congruence.
Qed.

Lemma same_wires_beat b v0 v x m :
  Bus.en b = Some v0 -> same_wires b (beat b v x m).
Proof.
  intros He. unfold same_wires, beat. simpl. rewrite He.
  destruct (Bus.er b); simpl; repeat split; congruence.
Qed.

Lemma same_wires_en b b' v0 :
  same_wires b b' -> Bus.en b = Some v0 -> exists v1, Bus.en b' = Some v1.
Proof.
  intros [_ [H _]] He. destruct (Bus.en b') as [v1|].
  - exists v1. reflexivity.
  - destruct H as [H _]. rewrite (H eq_refl) in He. discriminate.
Qed.

Lemma beat_same_wires b b' v x m :
  same_wires b b' -> beat b' v x m = beat b v x m.
Proof.
  intros [He [_ Hd]]. unfold beat. rewrite Hd.
  destruct (Bus.er b) as [e|], (Bus.er b') as [e'|]; simpl; try reflexivity;
    destruct He as [He1 He2]; try discriminate (He1 eq_refl);
    discriminate (He2 eq_refl).
Qed.

Lemma idle_beat_same_wires b b' :
  same_wires b b' -> idle_beat b' = idle_beat b.
Proof. intros H. apply beat_same_wires, H. Qed.

Lemma beats_same_wires b b' xs ms :
  same_wires b b' -> beats b' xs ms = beats b xs ms.
Proof.
  intros H. revert ms. induction xs as [|x xs IH]; intros ms; simpl.
  - reflexivity.
  - rewrite IH, (beat_same_wires _ _ _ _ _ H). reflexivity.
Qed.

Lemma beat_unwired b v x m m' :
  Bus.er b = None -> beat b v x m = beat b v x m'.
Proof. intros H. unfold beat. rewrite H. reflexivity. Qed.

Lemma beats_unwired b xs ms ms' :
  Bus.er b = None -> beats b xs ms = beats b xs ms'.
Proof.
  intros H. revert ms ms'. induction xs as [|x xs IH]; intros ms ms'; simpl.
  - reflexivity.
  - rewrite (IH (tl ms) (tl ms')), (beat_unwired b true x _ (hd 0 ms') H).
    reflexivity.
Qed.

Lemma drive_beat b v0 v x m :
  Bus.en b = Some v0 ->
  Bus.drive_en (Bus.drive_er (Bus.drive_d b x) m) v = Ok (beat b v x m).
Proof.
  intros He. unfold Bus.drive_en, Bus.drive_er, Bus.drive_d, beat. simpl.
  destruct (Bus.er b); simpl; rewrite He; reflexivity.
Qed.

(** A turn of the loop with nothing to send: in the gap, or idle. *)
Lemma step_no_frame p s b v0 :
  quiet p ->
  GmiiSource.frame s = None ->
  0 < GmiiSource.ifg_cnt s \/ GmiiSource.queue s = [] ->
  Bus.en b = Some v0 ->
  GmiiSource.step p s b
  = Ok (GmiiSource.mk false (GmiiSource.queue s) (GmiiSource.ifg s)
          (GmiiSource.queue_occupancy_bytes s)
          (GmiiSource.queue_occupancy_frames s) None
          (if 0 <? GmiiSource.ifg_cnt s then GmiiSource.ifg_cnt s - 1
           else GmiiSource.ifg_cnt s),
        idle_beat b).
Proof.
  intros [Hr He] Hf Hc Hen. unfold GmiiSource.step. rewrite Hr, He.
  unfold GmiiSource.next_frame.
  destruct (Z.ltb_spec 0 (GmiiSource.ifg_cnt s)) as [Hpos|Hnpos].
  - simpl. unfold GmiiSource.drive. simpl. rewrite Hf.
    rewrite (drive_beat b v0 false x00 0 Hen). reflexivity.
  - destruct Hc as [Hc|Hq]; [lia|]. rewrite Hf, Hq. simpl.
    unfold GmiiSource.drive. rewrite Hf.
    rewrite (drive_beat b v0 false x00 0 Hen). simpl. rewrite ?Hq, ?Hf.
    reflexivity.
Qed.

(** A turn of the loop that drives one byte of the frame in progress. *)
Lemma step_byte p s b v0 x rest m ms t :
  quiet p ->
  GmiiSource.frame s = Some (GmiiFrame.mk (x :: rest) (Some (m :: ms)) t) ->
  GmiiSource.ifg_cnt s <= 0 ->
  Bus.en b = Some v0 ->
  GmiiSource.step p s b
  = Ok (GmiiSource.mk (GmiiSource.active s) (GmiiSource.queue s)
          (GmiiSource.ifg s)
          (GmiiSource.queue_occupancy_bytes s)
          (GmiiSource.queue_occupancy_frames s)
          (match rest with
           | [] => None
           | _ :: _ =>
               Some (GmiiFrame.mk rest
                       (match Bus.er b with
                        | None => Some (m :: ms)
                        | Some _ => Some ms
                        end) t)
           end)
          (match rest with
           | [] => Z.max (GmiiSource.ifg s) 1
           | _ :: _ => GmiiSource.ifg_cnt s
           end),
        beat b true x m).
Proof.
  intros [Hr He] Hf Hc Hen. unfold GmiiSource.step. rewrite Hr, He.
  unfold GmiiSource.next_frame.
  destruct (Z.ltb_spec 0 (GmiiSource.ifg_cnt s)) as [Hpos|Hnpos]; [lia|].
  rewrite Hf. simpl. unfold GmiiSource.drive. rewrite Hf. simpl.
  unfold GmiiSource.pop_error. simpl.
  destruct (Bus.er b) as [e0|] eqn:Her; simpl.
  - unfold Bus.drive_er, Bus.drive_d, Bus.drive_en, beat. simpl.
    rewrite Her, Hen. simpl. destruct rest; reflexivity.
  - unfold Bus.drive_d, Bus.drive_en, beat. simpl.
    rewrite Her, Hen. simpl. destruct rest; reflexivity.
Qed.

(** The turn that dequeues continues as a turn on the dequeued frame. *)
Lemma step_dequeue p s b f q f' :
  quiet p ->
  GmiiSource.frame s = None ->
  GmiiSource.ifg_cnt s <= 0 ->
  GmiiSource.queue s = f :: q ->
  GmiiFrame.normalize f = Ok f' ->
  GmiiSource.step p s b
  = GmiiSource.step p
      (GmiiSource.mk true q (GmiiSource.ifg s)
         (GmiiSource.queue_occupancy_bytes s - GmiiFrame.len f)
         (GmiiSource.queue_occupancy_frames s - 1)
         (Some f') (GmiiSource.ifg_cnt s)) b.
Proof.
  intros [Hr He] Hf Hc Hq Hn. unfold GmiiSource.step. rewrite Hr, He.
  unfold GmiiSource.next_frame. simpl.
  destruct (Z.ltb_spec 0 (GmiiSource.ifg_cnt s)) as [Hpos|Hnpos]; [lia|].
  rewrite Hf, Hq, Hn. reflexivity.
Qed.

Lemma run_app ps1 ps2 s b :
  GmiiSource.run (ps1 ++ ps2) s b
  = ' (s1, b1, tr1) <- GmiiSource.run ps1 s b ;;
    ' (s2, b2, tr2) <- GmiiSource.run ps2 s1 b1 ;;
    Ok (s2, b2, tr1 ++ tr2).
Proof.
  revert s b. induction ps1 as [|p ps1 IH]; intros s b; simpl.
  - destruct (GmiiSource.run ps2 s b) as [[[s2 b2] tr2]|]; reflexivity.
  - destruct (GmiiSource.step p s b) as [[s1 b1]|]; simpl; [|reflexivity].
    rewrite IH.
    destruct (GmiiSource.run ps1 s1 b1) as [[[s2 b2] tr2]|]; simpl; [|reflexivity].
    destruct (GmiiSource.run ps2 s2 b2) as [[[s3 b3] tr3]|]; reflexivity.
Qed.

Lemma run_cons_ok p ps s b s1 b1 s2 b2 tr :
  GmiiSource.step p s b = Ok (s1, b1) ->
  GmiiSource.run ps s1 b1 = Ok (s2, b2, tr) ->
  GmiiSource.run (p :: ps) s b = Ok (s2, b2, b1 :: tr).
Proof. intros H1 H2. simpl. rewrite H1. simpl. rewrite H2. reflexivity. Qed.

Lemma run_app_ok ps1 ps2 s b s1 b1 tr1 s2 b2 tr2 :
  GmiiSource.run ps1 s b = Ok (s1, b1, tr1) ->
  GmiiSource.run ps2 s1 b1 = Ok (s2, b2, tr2) ->
  GmiiSource.run (ps1 ++ ps2) s b = Ok (s2, b2, tr1 ++ tr2).
Proof. intros H1 H2. rewrite run_app, H1. simpl. rewrite H2. reflexivity. Qed.

(** The frame in progress is driven out, one byte per cycle. *)
Lemma run_in_frame xs : forall x ms t s b v0 ps,
  GmiiSource.frame s = Some (GmiiFrame.mk (x :: xs) (Some ms) t) ->
  GmiiSource.ifg_cnt s <= 0 ->
  (length (x :: xs) <= length ms)%nat ->
  Bus.en b = Some v0 ->
  Forall quiet ps ->
  length ps = length (x :: xs) ->
  exists b',
    GmiiSource.run ps s b
    = Ok (GmiiSource.mk (GmiiSource.active s) (GmiiSource.queue s)
            (GmiiSource.ifg s) (GmiiSource.queue_occupancy_bytes s)
            (GmiiSource.queue_occupancy_frames s) None
            (Z.max (GmiiSource.ifg s) 1),
          b', beats b (x :: xs) ms) /\
    same_wires b b'.
Proof.
  induction xs as [|y xs IH]; intros x ms t s b v0 ps Hf Hc Hlen Hen Hq Hps.
  - destruct ps as [|p [|p' ps]]; try discriminate.
    destruct ms as [|m ms]; [simpl in Hlen; lia|].
    inversion Hq as [|? ? Hp _]; subst.
    exists (beat b true x m). split.
    + eapply run_cons_ok.
      * apply (step_byte p s b v0 x [] m ms t Hp Hf Hc Hen).
      * reflexivity.
    + eapply same_wires_beat; eauto.
  - destruct ps as [|p ps]; [discriminate|].
    destruct ms as [|m ms]; [simpl in Hlen; lia|].
    inversion Hq as [|? ? Hp Hq']; subst.
    pose proof (step_byte p s b v0 x (y :: xs) m ms t Hp Hf Hc Hen) as Hstep.
    pose proof (same_wires_beat b v0 true x m Hen) as Hw.
    match type of Hstep with _ = Ok (?s1, ?b1) =>
      destruct (IH y (match Bus.er b with None => m :: ms | Some _ => ms end)
                  t s1 b1 true ps) as [b' [Hrun Hw']]
    end.
    + simpl. destruct (Bus.er b); reflexivity.
    + simpl. exact Hc.
    + simpl in Hlen |- *. destruct (Bus.er b); simpl; lia.
    + reflexivity.
    + exact Hq'.
    + simpl in Hps |- *. lia.
    + exists b'. split.
      * change (beats b (x :: y :: xs) (m :: ms))
          with (beat b true x m :: beats b (y :: xs) ms).
        eapply run_cons_ok; [exact Hstep|].
        etransitivity; [exact Hrun|]. simpl.
        rewrite (beats_same_wires _ _ _ _ Hw), (beat_same_wires _ _ _ _ _ Hw).
        destruct (Bus.er b) eqn:Her; [reflexivity|].
        rewrite (beat_unwired b true y (hd 0 ms) m Her).
        rewrite (beats_unwired b xs (tl ms) ms Her). reflexivity.
      * eapply same_wires_trans; eauto.
Qed.

Lemma normalize_markers (f : GmiiFrame.t) :
  GmiiFrame.error f <> Some [] ->
  GmiiFrame.normalize f
  = Ok (GmiiFrame.mk (GmiiFrame.data f) (Some (markers f))
          (GmiiFrame.rx_sim_time f)).
Proof.
  intros Hne. unfold GmiiFrame.normalize, markers, GmiiFrame.len.
  destruct (GmiiFrame.error f) as [e|].
  - destruct (last_item e) as [l|] eqn:Hl.
    + rewrite (last_item_last e l 0 Hl), Nat2Z.id.
      replace (Z.to_nat (Z.of_nat (length (GmiiFrame.data f)) - Z.of_nat (length e)))
        with (length (GmiiFrame.data f) - length e)%nat by lia.
      reflexivity.
    + apply last_item_nil_iff in Hl. subst. congruence.
  - rewrite Nat2Z.id. reflexivity.
Qed.

Lemma markers_length (f : GmiiFrame.t) :
  length (markers f) = length (GmiiFrame.data f).
Proof.
  unfold markers. destruct (GmiiFrame.error f) as [e|].
  - rewrite length_app, length_firstn, repeat_length. lia.
  - apply repeat_length.
Qed.

(** From a source with no frame in progress and no gap left, the frame at
    the head of the queue goes out in as many cycles as it has bytes. *)
Lemma run_frame s b v0 f q ps :
  GmiiSource.frame s = None ->
  GmiiSource.ifg_cnt s <= 0 ->
  GmiiSource.queue s = f :: q ->
  sendable f ->
  Bus.en b = Some v0 ->
  Forall quiet ps ->
  length ps = length (GmiiFrame.data f) ->
  exists b',
    GmiiSource.run ps s b
    = Ok (GmiiSource.mk true q (GmiiSource.ifg s)
            (GmiiSource.queue_occupancy_bytes s - GmiiFrame.len f)
            (GmiiSource.queue_occupancy_frames s - 1) None
            (Z.max (GmiiSource.ifg s) 1),
          b', beats b (GmiiFrame.data f) (markers f)) /\
    same_wires b b'.
Proof.
  intros Hf Hc Hq [Hd He] Hen Hps Hlen.
  pose proof (normalize_markers f He) as Hn.
  pose proof (markers_length f) as Hm.
  destruct (GmiiFrame.data f) as [|x xs] eqn:Hdata; [congruence|].
  destruct ps as [|p ps]; [discriminate|].
  pose (s1 := GmiiSource.mk true q (GmiiSource.ifg s)
                (GmiiSource.queue_occupancy_bytes s - GmiiFrame.len f)
                (GmiiSource.queue_occupancy_frames s - 1)
                (Some (GmiiFrame.mk (x :: xs) (Some (markers f))
                         (GmiiFrame.rx_sim_time f)))
                (GmiiSource.ifg_cnt s)).
  destruct (run_in_frame xs x (markers f) (GmiiFrame.rx_sim_time f) s1 b v0
              (p :: ps)) as [b' [Hrun Hw]];
    try assumption; try reflexivity.
  - rewrite Hm. apply Nat.le_refl.
  - exists b'. split; [|exact Hw].
    transitivity (GmiiSource.run (p :: ps) s1 b); [|exact Hrun].
    inversion Hps as [|? ? Hp _]; subst. simpl.
    rewrite (step_dequeue p s b f q _ Hp Hf Hc Hq Hn). reflexivity.
Qed.

(** The inter-frame gap: [n] cycles with nothing driven. *)
Lemma run_gap n : forall s b v0 ps,
  GmiiSource.frame s = None ->
  GmiiSource.ifg_cnt s = Z.of_nat n ->
  Bus.en b = Some v0 ->
  Forall quiet ps ->
  length ps = n ->
  exists s' b',
    GmiiSource.run ps s b = Ok (s', b', repeat (idle_beat b) n) /\
    same_wires b b' /\
    GmiiSource.frame s' = None /\
    GmiiSource.ifg_cnt s' = 0 /\
    GmiiSource.queue s' = GmiiSource.queue s /\
    GmiiSource.ifg s' = GmiiSource.ifg s /\
    GmiiSource.queue_occupancy_bytes s' = GmiiSource.queue_occupancy_bytes s /\
    GmiiSource.queue_occupancy_frames s' = GmiiSource.queue_occupancy_frames s.
Proof.
  induction n as [|n IH]; intros s b v0 ps Hf Hc Hen Hps Hlen.
  - destruct ps; [|discriminate]. exists s, b. simpl.
    split; [reflexivity|]. split; [apply same_wires_refl|]. auto 10.
  - destruct ps as [|p ps]; [discriminate|].
    inversion Hps as [|? ? Hp Hps']; subst.
    assert (Hpos : 0 < GmiiSource.ifg_cnt s) by lia.
    pose proof (step_no_frame p s b v0 Hp Hf (or_introl Hpos) Hen) as Hstep.
    destruct (Z.ltb_spec 0 (GmiiSource.ifg_cnt s)) as [_|]; [|lia].
    pose proof (same_wires_beat b v0 false x00 0 Hen) as Hw.
    match type of Hstep with _ = Ok (?s1, ?b1) =>
      destruct (IH s1 b1 false ps) as [s' [b' [Hrun [Hw' [H1 [H2 [H3 [H4 [H5 H6]]]]]]]]]
    end; try reflexivity; try assumption.
    + simpl. lia.
    + simpl in Hlen. lia.
    + exists s', b'. split.
      * change (repeat (idle_beat b) (S n))
          with (idle_beat b :: repeat (idle_beat b) n).
        eapply run_cons_ok; [exact Hstep|].
        etransitivity; [exact Hrun|].
        rewrite (idle_beat_same_wires b (idle_beat b) Hw). reflexivity.
      * split; [eapply same_wires_trans; eauto|]. simpl in *. auto 10.
Qed.

(** With nothing queued the bus stays idle for as long as one likes. *)
Lemma run_idle ps : forall s b v0,
  GmiiSource.frame s = None ->
  GmiiSource.queue s = [] ->
  Bus.en b = Some v0 ->
  Forall quiet ps ->
  exists s' b',
    GmiiSource.run ps s b = Ok (s', b', repeat (idle_beat b) (length ps)).
Proof.
  induction ps as [|p ps IH]; intros s b v0 Hf Hq Hen Hps.
  - exists s, b. reflexivity.
  - inversion Hps as [|? ? Hp Hps']; subst.
    pose proof (step_no_frame p s b v0 Hp Hf (or_intror Hq) Hen) as Hstep.
    pose proof (same_wires_beat b v0 false x00 0 Hen) as Hw.
    match type of Hstep with _ = Ok (?s1, ?b1) =>
      destruct (IH s1 b1 false) as [s' [b' Hrun]]
    end; try reflexivity; try assumption.
    exists s', b'.
    change (repeat (idle_beat b) (length (p :: ps)))
      with (idle_beat b :: repeat (idle_beat b) (length ps)).
    eapply run_cons_ok; [exact Hstep|].
    etransitivity; [exact Hrun|].
    rewrite (idle_beat_same_wires b (idle_beat b) Hw). reflexivity.
Qed.

Lemma split_cycles {A : Type} (l : list A) (n m : nat) :
  length l = (n + m)%nat ->
  exists l1 l2, l = l1 ++ l2 /\ length l1 = n /\ length l2 = m.
Proof.
  intros H. exists (firstn n l), (skipn n l). split.
  - symmetry. apply firstn_skipn.
  - rewrite length_firstn, length_skipn. lia.
Qed.

(** Two queued frames: the first one's bytes, then [max(ifg, 1)] cycles
    with nothing driven, then the second one's bytes. *)
Lemma run_two_frames s b v0 f1 f2 q ps :
  GmiiSource.frame s = None ->
  GmiiSource.ifg_cnt s <= 0 ->
  GmiiSource.queue s = f1 :: f2 :: q ->
  sendable f1 -> sendable f2 ->
  Bus.en b = Some v0 ->
  Forall quiet ps ->
  length ps = (length (GmiiFrame.data f1)
               + (Z.to_nat (Z.max (GmiiSource.ifg s) 1)
                  + length (GmiiFrame.data f2)))%nat ->
  exists s' b',
    GmiiSource.run ps s b
    = Ok (s', b',
          beats b (GmiiFrame.data f1) (markers f1)
          ++ repeat (idle_beat b) (Z.to_nat (Z.max (GmiiSource.ifg s) 1))
          ++ beats b (GmiiFrame.data f2) (markers f2)).
Proof.
  intros Hf Hc Hq Hs1 Hs2 Hen Hps Hlen.
  destruct (split_cycles ps _ _ Hlen) as [ps1 [ps23 [E1 [L1 L23]]]].
  destruct (split_cycles ps23 _ _ L23) as [ps2 [ps3 [E2 [L2 L3]]]].
  subst ps ps23.
  apply Forall_app in Hps. destruct Hps as [Hps1 Hps].
  apply Forall_app in Hps. destruct Hps as [Hps2 Hps3].
  destruct (run_frame s b v0 f1 (f2 :: q) ps1 Hf Hc Hq Hs1 Hen Hps1 L1)
    as [b1 [Hrun1 Hw1]].
  destruct (same_wires_en _ _ _ Hw1 Hen) as [v1 Hen1].
  match type of Hrun1 with _ = Ok (?s1, _, _) =>
    destruct (run_gap (Z.to_nat (Z.max (GmiiSource.ifg s) 1)) s1 b1 v1 ps2)
      as [s2 [b2 [Hrun2 [Hw2 [F2 [C2 [Q2 [G2 _]]]]]]]]
  end; try reflexivity; try assumption.
  { simpl. lia. }
  simpl in Q2, G2.
  destruct (same_wires_en _ _ _ Hw2 Hen1) as [v2 Hen2].
  destruct (run_frame s2 b2 v2 f2 q ps3) as [b3 [Hrun3 Hw3]];
    try assumption.
  { lia. }
  rewrite (idle_beat_same_wires _ _ Hw1) in Hrun2.
  rewrite (beats_same_wires b b2) in Hrun3
    by (eapply same_wires_trans; eauto).
  eexists. eexists.
  eapply run_app_ok; [exact Hrun1|].
  eapply run_app_ok; [exact Hrun2|].
  exact Hrun3.
Qed.

Lemma idle_cycles_app tr1 tr2 :
  idle_cycles (tr1 ++ tr2) = (idle_cycles tr1 + idle_cycles tr2)%nat.
Proof. unfold idle_cycles. rewrite filter_app, length_app. reflexivity. Qed.

Lemma idle_cycles_beats b xs ms : idle_cycles (beats b xs ms) = 0%nat.
Proof.
  revert ms. induction xs as [|x xs IH]; intros ms; [reflexivity|].
  unfold idle_cycles in *. simpl. apply IH.
Qed.

Lemma idle_cycles_gap b n : idle_cycles (repeat (idle_beat b) n) = n.
Proof.
  induction n as [|n IH]; [reflexivity|].
  unfold idle_cycles in *. simpl. rewrite IH. reflexivity.
Qed.

(** C5: with [ifg = G >= 1], reset low and enable true, two queued frames
    leave the source as the bytes of the first, then exactly [G] cycles with
    valid de-asserted, then the bytes of the second. *)
Theorem gap_cycles_equal_ifg (G : Z) s b v0 f1 f2 q ps :
  1 <= G ->
  GmiiSource.ifg s = G ->
  GmiiSource.frame s = None ->
  GmiiSource.ifg_cnt s <= 0 ->
  GmiiSource.queue s = f1 :: f2 :: q ->
  sendable f1 -> sendable f2 ->
  Bus.en b = Some v0 ->
  Forall quiet ps ->
  length ps = (length (GmiiFrame.data f1)
               + (Z.to_nat G + length (GmiiFrame.data f2)))%nat ->
  exists s' b' gap,
    GmiiSource.run ps s b
    = Ok (s', b',
          beats b (GmiiFrame.data f1) (markers f1)
          ++ gap
          ++ beats b (GmiiFrame.data f2) (markers f2)) /\
    gap = repeat (idle_beat b) (Z.to_nat G) /\
    Z.of_nat (length gap) = G /\
    Z.of_nat (idle_cycles gap) = G /\
    idle_cycles (beats b (GmiiFrame.data f1) (markers f1)) = 0%nat /\
    idle_cycles (beats b (GmiiFrame.data f2) (markers f2)) = 0%nat.
Proof.
  intros HG Hifg Hf Hc Hq Hs1 Hs2 Hen Hps Hlen.
  assert (Hmax : Z.max (GmiiSource.ifg s) 1 = G) by lia.
  destruct (run_two_frames s b v0 f1 f2 q ps) as [s' [b' Hrun]];
    try assumption.
  { rewrite Hmax. exact Hlen. }
  rewrite Hmax in Hrun.
  exists s', b', (repeat (idle_beat b) (Z.to_nat G)).
  split; [exact Hrun|]. split; [reflexivity|].
  rewrite repeat_length, idle_cycles_gap, !idle_cycles_beats.
  repeat split; lia.
Qed.

Lemma gap_cycles_equal_ifg_witness :
  exists s' b' gap,
    GmiiSource.run (repeat (mkPins (Some false) None) 7)
      (GmiiSource.send (GmiiFrame.OfBytes [x0a; x0b])
         (GmiiSource.send (GmiiFrame.OfBytes [x01; x02])
            (GmiiSource.set_ifg 3 GmiiSource.init)))
      (Bus.mk x00 (Some 0) (Some false) None)
    = Ok (s', b',
          [Bus.mk x01 (Some 0) (Some true) None;
           Bus.mk x02 (Some 0) (Some true) None]
          ++ gap
          ++ [Bus.mk x0a (Some 0) (Some true) None;
              Bus.mk x0b (Some 0) (Some true) None]) /\
    gap = repeat (Bus.mk x00 (Some 0) (Some false) None) 3 /\
    Z.of_nat (length gap) = 3 /\
    Z.of_nat (idle_cycles gap) = 3 /\
    idle_cycles [Bus.mk x01 (Some 0) (Some true) None;
                 Bus.mk x02 (Some 0) (Some true) None] = 0%nat /\
    idle_cycles [Bus.mk x0a (Some 0) (Some true) None;
                 Bus.mk x0b (Some 0) (Some true) None] = 0%nat.
Proof.
  apply (gap_cycles_equal_ifg 3
           (GmiiSource.send (GmiiFrame.OfBytes [x0a; x0b])
              (GmiiSource.send (GmiiFrame.OfBytes [x01; x02])
                 (GmiiSource.set_ifg 3 GmiiSource.init)))
           (Bus.mk x00 (Some 0) (Some false) None) false
           (GmiiFrame.mk [x01; x02] None None)
           (GmiiFrame.mk [x0a; x0b] None None) []
           (repeat (mkPins (Some false) None) 7)).
  - lia.
  - reflexivity.
  - reflexivity.
  - simpl. lia.
  - reflexivity.
  - split; discriminate.
  - split; discriminate.
  - reflexivity.
  - repeat constructor.
  - reflexivity.
Defined.

(** Right after a frame's last byte the gap counter is [max(ifg, 1) >= 1];
    whatever reset and enable do, the next turn of the loop either leaves
    the bus as it is or drives valid low. *)
Lemma valid_drops_after_last_byte p s b s' b' :
  GmiiSource.frame s = None ->
  0 < GmiiSource.ifg_cnt s ->
  GmiiSource.step p s b = Ok (s', b') ->
  b' = b \/ Bus.en b' = Some false.
Proof.
  intros Hf Hc. unfold GmiiSource.step.
  destruct (reset_asserted p).
  - unfold GmiiSource.on_reset.
    destruct (Bus.drive_en _ false) as [b2|] eqn:Hd; [|discriminate].
    simpl. intros E. inversion E. subst. right. eapply drive_en_inv; eauto.
  - destruct (enabled p).
    + unfold GmiiSource.next_frame.
      destruct (Z.ltb_spec 0 (GmiiSource.ifg_cnt s)); [|lia].
      simpl. unfold GmiiSource.drive. simpl. rewrite Hf.
      destruct (Bus.drive_en _ false) as [b2|] eqn:Hd; [|discriminate].
      simpl. intros E. inversion E. subst. right. eapply drive_en_inv; eauto.
    + intros E. inversion E. left. reflexivity.
Qed.

(** C2 as stated fails: with [ifg = 0] and two one-byte frames queued, the
    cycle after the byte of the first frame has valid de-asserted; the byte
    of the second frame comes one cycle later. *)
Lemma ifg_zero_still_one_idle_cycle :
  exists s' b',
    GmiiSource.run
      [mkPins (Some false) (Some true); mkPins (Some false) (Some true);
       mkPins (Some false) (Some true)]
      (GmiiSource.send (GmiiFrame.OfBytes [x02])
         (GmiiSource.send (GmiiFrame.OfBytes [x01])
            (GmiiSource.set_ifg 0 GmiiSource.init)))
      (Bus.source_init (Bus.mk x00 (Some 0) (Some false) None))
    = Ok (s', b',
          [Bus.mk x01 (Some 0) (Some true) None;
           Bus.mk x00 (Some 0) (Some false) None;
           Bus.mk x02 (Some 0) (Some true) None]).
Proof. eexists. eexists. reflexivity. Qed.

(** C2, as the code has it: with [ifg = 0], reset low and enable true, two
    queued frames leave the source as the bytes of the first, then exactly
    one cycle with valid de-asserted, then the bytes of the second. *)
Theorem ifg_zero_gap_is_one_cycle s b v0 f1 f2 q ps :
  GmiiSource.ifg s = 0 ->
  GmiiSource.frame s = None ->
  GmiiSource.ifg_cnt s <= 0 ->
  GmiiSource.queue s = f1 :: f2 :: q ->
  sendable f1 -> sendable f2 ->
  Bus.en b = Some v0 ->
  Forall quiet ps ->
  length ps = (length (GmiiFrame.data f1)
               + (1 + length (GmiiFrame.data f2)))%nat ->
  exists s' b',
    GmiiSource.run ps s b
    = Ok (s', b',
          beats b (GmiiFrame.data f1) (markers f1)
          ++ [idle_beat b]
          ++ beats b (GmiiFrame.data f2) (markers f2)) /\
    Bus.en (idle_beat b) = Some false /\
    idle_cycles (beats b (GmiiFrame.data f1) (markers f1)) = 0%nat /\
    idle_cycles (beats b (GmiiFrame.data f2) (markers f2)) = 0%nat.
Proof.
  intros Hifg Hf Hc Hq Hs1 Hs2 Hen Hps Hlen.
  assert (Hmax : Z.to_nat (Z.max (GmiiSource.ifg s) 1) = 1%nat) by lia.
  destruct (run_two_frames s b v0 f1 f2 q ps) as [s' [b' Hrun]];
    try assumption.
  { rewrite Hmax. exact Hlen. }
  rewrite Hmax in Hrun.
  exists s', b'. split; [exact Hrun|].
  rewrite !idle_cycles_beats. repeat split.
Qed.

Lemma ifg_zero_gap_is_one_cycle_witness :
  exists s' b',
    GmiiSource.run (repeat (mkPins None None) 4)
      (GmiiSource.send (GmiiFrame.OfBytes [x0a])
         (GmiiSource.send (GmiiFrame.OfBytes [x01; x02])
            (GmiiSource.set_ifg 0 GmiiSource.init)))
      (Bus.mk x00 None (Some false) None)
    = Ok (s', b',
          [Bus.mk x01 None (Some true) None; Bus.mk x02 None (Some true) None]
          ++ [Bus.mk x00 None (Some false) None]
          ++ [Bus.mk x0a None (Some true) None]) /\
    Some false = Some false /\
    idle_cycles [Bus.mk x01 None (Some true) None;
                 Bus.mk x02 None (Some true) None] = 0%nat /\
    idle_cycles [Bus.mk x0a None (Some true) None] = 0%nat.
Proof.
  apply (ifg_zero_gap_is_one_cycle
           (GmiiSource.send (GmiiFrame.OfBytes [x0a])
              (GmiiSource.send (GmiiFrame.OfBytes [x01; x02])
                 (GmiiSource.set_ifg 0 GmiiSource.init)))
           (Bus.mk x00 None (Some false) None) false
           (GmiiFrame.mk [x01; x02] None None)
           (GmiiFrame.mk [x0a] None None) []
           (repeat (mkPins None None) 4)).
  - reflexivity.
  - reflexivity.
  - simpl. lia.
  - reflexivity.
  - split; discriminate.
  - split; discriminate.
  - reflexivity.
  - repeat constructor.
  - reflexivity.
Defined.

(** * The sink on the cycles the source produces *)

(** The source does not look at the sink: a run of the pair is a run of the
    source followed by the sink's loop over what was driven. *)
Lemma system_run_split ks : forall src b snk src' b' tr snk',
  GmiiSource.run (map System.src_pins ks) src b = Ok (src', b', tr) ->
  feed ks tr snk = Ok snk' ->
  System.run ks (src, b, snk) = Ok (src', b', snk').
Proof.
  induction ks as [|k ks IH]; intros src b snk src' b' tr snk'; simpl.
  - intros E1 E2. inversion E1. subst. simpl in E2. inversion E2. reflexivity.
  - destruct (GmiiSource.step (System.src_pins k) src b) as [[s1 b1]|];
      simpl; [|discriminate].
    destruct (GmiiSource.run (map System.src_pins ks) s1 b1)
      as [[[s2 b2] tr2]|] eqn:Hr; simpl; [|discriminate].
    intros E1. inversion E1. subst. simpl.
    destruct (GmiiSink.step (System.snk_pins k) (System.now k) snk b1)
      as [snk1|]; simpl; [|discriminate].
    intros E2. eapply IH; eauto.
Qed.

Lemma feed_app ks1 : forall ks2 tr1 tr2 snk snk1 snk2,
  length ks1 = length tr1 ->
  feed ks1 tr1 snk = Ok snk1 ->
  feed ks2 tr2 snk1 = Ok snk2 ->
  feed (ks1 ++ ks2) (tr1 ++ tr2) snk = Ok snk2.
Proof.
  induction ks1 as [|k ks1 IH]; intros ks2 tr1 tr2 snk snk1 snk2 Hlen.
  - destruct tr1; [|discriminate]. simpl. intros E; inversion E. auto.
  - destruct tr1 as [|b tr1]; [discriminate|]. simpl.
    destruct (GmiiSink.step _ _ snk b) as [snk'|]; simpl; [|discriminate].
    intros E1 E2. eapply IH; eauto.
Qed.

Lemma sink_step_start p now snk b x m :
  quiet p ->
  GmiiSink.frame snk = None ->
  GmiiSink.step p now snk (beat b true x m)
  = Ok (GmiiSink.mk (GmiiSink.active snk) (GmiiSink.queue snk)
          (GmiiSink.sync snk) (GmiiSink.queue_occupancy_bytes snk)
          (GmiiSink.queue_occupancy_frames snk)
          (Some (GmiiFrame.mk [x] (Some [sampled_er b m]) (Some now)))).
Proof.
  intros [Hr He] Hf. unfold GmiiSink.step. rewrite Hr, He. simpl.
  unfold GmiiSink.delimit. rewrite Hf. simpl.
  unfold sampled_er. destruct (Bus.er b); reflexivity.
Qed.

Lemma sink_step_byte p now snk b x m pre zs t :
  quiet p ->
  GmiiSink.frame snk = Some (GmiiFrame.mk pre (Some zs) t) ->
  GmiiSink.step p now snk (beat b true x m)
  = Ok (GmiiSink.mk (GmiiSink.active snk) (GmiiSink.queue snk)
          (GmiiSink.sync snk) (GmiiSink.queue_occupancy_bytes snk)
          (GmiiSink.queue_occupancy_frames snk)
          (Some (GmiiFrame.mk (pre ++ [x]) (Some (zs ++ [sampled_er b m])) t))).
Proof.
  intros [Hr He] Hf. unfold GmiiSink.step. rewrite Hr, He. simpl.
  unfold GmiiSink.delimit. rewrite Hf. simpl.
  unfold GmiiSink.append. rewrite Hf. simpl.
  unfold sampled_er. destruct (Bus.er b); reflexivity.
Qed.

Lemma sink_step_end p now snk b xs zs t :
  quiet p ->
  GmiiSink.frame snk = Some (GmiiFrame.mk xs (Some zs) t) ->
  Forall (fun v => v = 0) zs ->
  GmiiSink.step p now snk (idle_beat b)
  = Ok (GmiiSink.mk (GmiiSink.active snk)
          (GmiiSink.queue snk ++ [GmiiFrame.mk xs None t]) true
          (GmiiSink.queue_occupancy_bytes snk + Z.of_nat (length xs))
          (GmiiSink.queue_occupancy_frames snk + 1)
          None).
Proof.
  intros [Hr He] Hf Hz. unfold GmiiSink.step. rewrite Hr, He. simpl.
  unfold GmiiSink.delimit. rewrite Hf. simpl.
  unfold GmiiFrame.compact. simpl.
  apply any_false_iff in Hz. rewrite Hz. reflexivity.
Qed.

Lemma sink_step_idle p now snk b :
  quiet p ->
  GmiiSink.frame snk = None ->
  GmiiSink.step p now snk (idle_beat b) = Ok snk.
Proof.
  intros [Hr He] Hf. unfold GmiiSink.step. rewrite Hr, He. simpl.
  unfold GmiiSink.delimit. rewrite Hf. simpl.
  unfold GmiiSink.append. rewrite Hf. reflexivity.
Qed.

(** Bytes driven with zero markers extend the frame being received. *)
Lemma feed_bytes b xs : forall ks snk pre zs t,
  GmiiSink.frame snk = Some (GmiiFrame.mk pre (Some zs) t) ->
  Forall (fun v => v = 0) zs ->
  Forall sink_quiet ks ->
  length ks = length xs ->
  exists zs',
    Forall (fun v => v = 0) zs' /\
    feed ks (beats b xs (repeat 0 (length xs))) snk
    = Ok (GmiiSink.mk (GmiiSink.active snk) (GmiiSink.queue snk)
            (GmiiSink.sync snk) (GmiiSink.queue_occupancy_bytes snk)
            (GmiiSink.queue_occupancy_frames snk)
            (Some (GmiiFrame.mk (pre ++ xs) (Some zs') t))).
Proof.
  induction xs as [|x xs IH]; intros ks snk pre zs t Hf Hz Hq Hlen.
  - destruct ks; [|discriminate]. exists zs. split; [exact Hz|].
    simpl. rewrite app_nil_r, <- Hf. destruct snk; reflexivity.
  - destruct ks as [|k ks]; [discriminate|].
    inversion Hq as [|? ? Hk Hq']; subst.
    simpl. rewrite (sink_step_byte _ _ snk b x 0 pre zs t Hk Hf). simpl.
    match goal with |- context [feed ks _ ?s1] =>
      destruct (IH ks s1 (pre ++ [x]) (zs ++ [sampled_er b 0]) t)
        as [zs' [Hz' Hfeed]]
    end.
    + reflexivity.
    + apply Forall_app. split; [exact Hz|]. constructor; [|constructor].
      unfold sampled_er. destruct (Bus.er b); reflexivity.
    + exact Hq'.
    + simpl in Hlen. lia.
    + exists zs'. split; [exact Hz'|]. rewrite Hfeed. simpl.
      rewrite <- app_assoc. reflexivity.
Qed.

(** Idle cycles leave a sink that is not receiving as it is. *)
Lemma feed_idle b n : forall ks snk,
  GmiiSink.frame snk = None ->
  Forall sink_quiet ks ->
  feed ks (repeat (idle_beat b) n) snk = Ok snk.
Proof.
  induction n as [|n IH]; intros ks snk Hf Hq.
  - destruct ks; reflexivity.
  - destruct ks as [|k ks]; [reflexivity|].
    inversion Hq as [|? ? Hk Hq']; subst. simpl.
    rewrite (sink_step_idle _ _ snk b Hk Hf). simpl. apply IH; assumption.
Qed.

(** A whole frame with zero markers followed by at least one idle cycle is
    enqueued once, without error list. *)
Lemma feed_frame b x xs n ks snk :
  GmiiSink.frame snk = None ->
  Forall sink_quiet ks ->
  length ks = (length (x :: xs) + S n)%nat ->
  exists t,
    feed ks (beats b (x :: xs) (repeat 0 (length (x :: xs)))
             ++ repeat (idle_beat b) (S n)) snk
    = Ok (GmiiSink.mk (GmiiSink.active snk)
            (GmiiSink.queue snk ++ [GmiiFrame.mk (x :: xs) None (Some t)]) true
            (GmiiSink.queue_occupancy_bytes snk + Z.of_nat (length (x :: xs)))
            (GmiiSink.queue_occupancy_frames snk + 1)
            None).
Proof.
  intros Hf Hq Hlen.
  destruct (split_cycles ks _ _ Hlen) as [ks1 [ks2 [E [L1 L2]]]]. subst ks.
  apply Forall_app in Hq. destruct Hq as [Hq1 Hq2].
  destruct ks1 as [|k1 ks1]; [discriminate|].
  destruct ks2 as [|k2 ks2]; [discriminate|].
  inversion Hq1 as [|? ? Hk1 Hq1']; subst.
  inversion Hq2 as [|? ? Hk2 Hq2']; subst.
  exists (System.now k1).
  pose proof (sink_step_start _ (System.now k1) snk b x 0 Hk1 Hf) as Hstart.
  match type of Hstart with _ = Ok ?s1 =>
    destruct (feed_bytes b xs ks1 s1 [x] [sampled_er b 0] (Some (System.now k1)))
      as [zs' [Hz' Hfeed]]
  end.
  - reflexivity.
  - constructor; [|constructor]. unfold sampled_er. destruct (Bus.er b); reflexivity.
  - exact Hq1'.
  - simpl in L1. lia.
  - eapply feed_app.
    + simpl. f_equal. simpl in L1.
      clear - L1. revert L1. generalize (repeat 0 (length xs)).
      intros l L1.
      assert (H : forall ys ms, length (beats b ys ms) = length ys).
      { induction ys; intros; simpl; auto. }
      rewrite H. lia.
    + simpl. rewrite Hstart. simpl. exact Hfeed.
    + simpl.
      match goal with |- context [GmiiSink.step _ _ ?s2 _] =>
        rewrite (sink_step_end _ (System.now k2) s2 b (x :: xs) zs'
                   (Some (System.now k1)) Hk2 eq_refl Hz')
      end.
      simpl. apply feed_idle; [reflexivity | exact Hq2'].
Qed.

(** A single queued frame: its bytes, then idle cycles for as long as the
    clock runs. *)
Lemma run_one_frame s b v0 f n ps :
  GmiiSource.frame s = None ->
  GmiiSource.ifg_cnt s <= 0 ->
  GmiiSource.queue s = [f] ->
  sendable f ->
  Bus.en b = Some v0 ->
  Forall quiet ps ->
  length ps = (length (GmiiFrame.data f) + n)%nat ->
  exists s' b',
    GmiiSource.run ps s b
    = Ok (s', b',
          beats b (GmiiFrame.data f) (markers f) ++ repeat (idle_beat b) n) /\
    GmiiSource.queue s' = [].
Proof.
  intros Hf Hc Hq Hs Hen Hps Hlen.
  destruct (split_cycles ps _ _ Hlen) as [ps1 [ps2 [E [L1 L2]]]]. subst ps.
  apply Forall_app in Hps. destruct Hps as [Hps1 Hps2].
  destruct (run_frame s b v0 f [] ps1 Hf Hc Hq Hs Hen Hps1 L1)
    as [b1 [Hrun1 Hw1]].
  destruct (same_wires_en _ _ _ Hw1 Hen) as [v1 Hen1].
  match type of Hrun1 with _ = Ok (?s1, _, _) =>
    assert (Hrun2 : exists s' b',
               GmiiSource.run ps2 s1 b1
               = Ok (s', b', repeat (idle_beat b1) (length ps2)) /\
               GmiiSource.queue s' = [])
  end.
  { clear Hrun1 L2 Hlen.
    match goal with |- exists s' b', GmiiSource.run _ ?s1 _ = _ /\ _ =>
      assert (Hf1 : GmiiSource.frame s1 = None) by reflexivity;
      assert (Hq1 : GmiiSource.queue s1 = []) by reflexivity;
      generalize dependent s1
    end.
    revert b1 v1 Hen1 Hw1.
    induction ps2 as [|p ps2 IH]; intros b1 v1 Hen1 Hw1 s1 Hf1 Hq1.
    - exists s1, b1. split; [reflexivity | exact Hq1].
    - inversion Hps2 as [|? ? Hp Hps2']; subst.
      pose proof (step_no_frame p s1 b1 v1 Hp Hf1 (or_intror Hq1) Hen1) as Hstep.
      pose proof (same_wires_beat b1 v1 false x00 0 Hen1) as Hw.
      match type of Hstep with _ = Ok (?s2, ?b2) =>
        destruct (IH Hps2' b2 false eq_refl
                    (same_wires_trans _ _ _ Hw1 Hw) s2 eq_refl Hq1)
          as [s' [b' [Hrun Hq']]]
      end.
      exists s', b'. split; [|exact Hq'].
      change (repeat (idle_beat b1) (length (p :: ps2)))
        with (idle_beat b1 :: repeat (idle_beat b1) (length ps2)).
      eapply run_cons_ok; [exact Hstep|].
      etransitivity; [exact Hrun|].
      rewrite (idle_beat_same_wires b1 (idle_beat b1) Hw). reflexivity. }
  destruct Hrun2 as [s' [b' [Hrun2 Hq']]].
  rewrite (idle_beat_same_wires _ _ Hw1), L2 in Hrun2.
  exists s', b'. split; [|exact Hq'].
  eapply run_app_ok; eauto.
Qed.

(** The sink's sample of the bus as the source's constructor leaves it, before
    the first clock edge, changes nothing. *)
Lemma sink_first_sample p now b0 v0 :
  quiet p ->
  Bus.en b0 = Some v0 ->
  GmiiSink.step p now GmiiSink.init (Bus.source_init b0) = Ok GmiiSink.init.
Proof.
  intros [Hr He] Hen. unfold GmiiSink.step. rewrite Hr, He.
  unfold Bus.dv_alias, Bus.source_init. simpl. rewrite Hen. reflexivity.
Qed.

Lemma beats_length b xs ms : length (beats b xs ms) = length xs.
Proof.
  revert ms. induction xs as [|x xs IH]; intros ms; simpl; [reflexivity|].
  rewrite IH. reflexivity.
Qed.

(** C1: a source that is sent [from_payload(P)] and a sink share the bus and
    the clock; with reset never asserted and enable true, once the clock has
    made one more cycle than the frame has bytes, and from then on, the
    sink's queue holds one frame, whose payload is [P], whose preamble is
    the preamble and whose error field is [None]. *)
Theorem round_trip_payload (ETH_PREAMBLE P : list byte) (G : Z)
    (b0 : Bus.t) (v0 : bool) (ks : list System.Tick) :
  length ETH_PREAMBLE = 8%nat ->
  Bus.en b0 = Some v0 ->
  Forall System.quiet ks ->
  (length (ETH_PREAMBLE ++ P) < length ks)%nat ->
  exists src' b' snk' fr,
    System.run ks
      (GmiiSource.send
         (GmiiFrame.OfFrame (GmiiFrame.from_payload ETH_PREAMBLE P))
         (GmiiSource.set_ifg G GmiiSource.init),
       Bus.source_init b0,
       GmiiSink.init)
    = Ok (src', b', snk') /\
    GmiiSink.queue snk' = [fr] /\
    GmiiFrame.get_payload fr = P /\
    GmiiFrame.get_preamble fr = ETH_PREAMBLE /\
    GmiiFrame.error fr = None /\
    GmiiSink.queue_occupancy_frames snk' = 1 /\
    GmiiSource.queue src' = [].
Proof.
  intros Hpre Hen Hq Hlen.
  set (f := GmiiFrame.mk (ETH_PREAMBLE ++ P) None None).
  set (b := Bus.source_init b0).
  assert (Henb : Bus.en b = Some false).
  { unfold b, Bus.source_init. simpl. rewrite Hen. reflexivity. }
  assert (Hs : sendable f).
  { split; simpl; [|discriminate].
    destruct ETH_PREAMBLE; [discriminate Hpre | discriminate]. }
  assert (Hqs : Forall quiet (map System.src_pins ks)).
  { apply Forall_map. eapply Forall_impl; [|exact Hq].
    intros k [H1 [H2 _]]. split; assumption. }
  assert (Hqk : Forall sink_quiet ks).
  { eapply Forall_impl; [|exact Hq].
    intros k [_ [_ [H3 H4]]]. split; assumption. }
  assert (Hks : exists n, length ks = (length (GmiiFrame.data f) + S n)%nat).
  { exists (length ks - S (length (ETH_PREAMBLE ++ P)))%nat. simpl. lia. }
  destruct Hks as [n Hks].
  destruct (run_one_frame
              (GmiiSource.send
                 (GmiiFrame.OfFrame (GmiiFrame.from_payload ETH_PREAMBLE P))
                 (GmiiSource.set_ifg G GmiiSource.init))
              b false f (S n) (map System.src_pins ks))
    as [src' [b' [Hrun Hq']]]; try assumption; try reflexivity.
  { rewrite length_map. exact Hks. }
  assert (Hm : markers f = repeat 0 (length (GmiiFrame.data f))) by reflexivity.
  rewrite Hm in Hrun.
  destruct (GmiiFrame.data f) as [|x xs] eqn:Hd.
  { destruct Hs as [Hs _]. congruence. }
  destruct (feed_frame b x xs n ks GmiiSink.init eq_refl Hqk Hks) as [t Hfeed].
  exists src', b'. eexists. exists (GmiiFrame.mk (x :: xs) None (Some t)).
  split; [eapply system_run_split; [exact Hrun | exact Hfeed]|].
  split; [reflexivity|].
  unfold GmiiFrame.get_payload, GmiiFrame.get_preamble.
  cbn [GmiiFrame.data GmiiFrame.error GmiiSink.queue_occupancy_frames
       GmiiSink.init].
  simpl in Hd. rewrite <- Hd, <- Hpre.
  split.
  { rewrite skipn_app, skipn_all, Nat.sub_diag. reflexivity. }
  split.
  { rewrite firstn_app, firstn_all, Nat.sub_diag. apply app_nil_r. }
  repeat split; auto.
Qed.

Lemma round_trip_payload_witness :
  exists src' b' snk' fr,
    System.run
      (repeat (System.mkTick (mkPins (Some false) None)
                 (mkPins (Some false) None) 40) 12)
      (GmiiSource.send
         (GmiiFrame.OfFrame
            (GmiiFrame.from_payload [x55; x55; x55; x55; x55; x55; x55; xd5]
               [xde; xad; xbe]))
         (GmiiSource.set_ifg 12 GmiiSource.init),
       Bus.source_init (Bus.mk x00 (Some 0) (Some false) None),
       GmiiSink.init)
    = Ok (src', b', snk') /\
    GmiiSink.queue snk' = [fr] /\
    GmiiFrame.get_payload fr = [xde; xad; xbe] /\
    GmiiFrame.get_preamble fr = [x55; x55; x55; x55; x55; x55; x55; xd5] /\
    GmiiFrame.error fr = None /\
    GmiiSink.queue_occupancy_frames snk' = 1 /\
    GmiiSource.queue src' = [].
Proof.
  apply (round_trip_payload [x55; x55; x55; x55; x55; x55; x55; xd5]
           [xde; xad; xbe] 12 (Bus.mk x00 (Some 0) (Some false) None) false).
  - reflexivity.
  - reflexivity.
  - repeat constructor.
  - simpl. lia.
Defined.

(** * Construction on an entity that lacks optional signals *)

(** C6 fails on the code, by a slip of the code: [er], [en] and [dv] are
    declared in [_optional_signals] and tested with [is not None], but the
    test itself reads an attribute that the bus does not have when the
    signal is not wired.  [__init__] of both classes raises
    [AttributeError] whenever [er] or [en] is missing, before [_run] is
    started, and returns the fresh instance exactly when both are wired;
    [dv] alone may be missing. *)
Theorem constructors_need_er_and_en (b : Bus.t) :
  (Bus.er b = None \/ Bus.en b = None ->
   GmiiSource.construct b = Raise AttributeError /\
   GmiiSink.construct b = Raise AttributeError) /\
  (Bus.er b <> None -> Bus.en b <> None ->
   GmiiSource.construct b = Ok (GmiiSource.init, Bus.source_init b) /\
   GmiiSink.construct b = Ok GmiiSink.init).
Proof.
  unfold GmiiSource.construct, GmiiSink.construct, Bus.attr.
  split.
  - intros [He|He].
    + rewrite He. split; reflexivity.
    + rewrite He. destruct (Bus.er b); split; reflexivity.
  - intros Her Hen.
    destruct (Bus.er b); [|congruence].
    destruct (Bus.en b); [|congruence].
    split; reflexivity.
Qed.

Lemma constructors_need_er_and_en_witness :
  (GmiiSource.construct (Bus.mk x00 None None None) = Raise AttributeError /\
   GmiiSink.construct (Bus.mk x00 None None None) = Raise AttributeError) /\
  (GmiiSource.construct (Bus.mk x00 (Some 0) (Some false) None)
   = Ok (GmiiSource.init,
         Bus.source_init (Bus.mk x00 (Some 0) (Some false) None)) /\
   GmiiSink.construct (Bus.mk x00 (Some 0) (Some false) None)
   = Ok GmiiSink.init).
Proof.
  split.
  - apply (proj1 (constructors_need_er_and_en (Bus.mk x00 None None None))).
    left. reflexivity.
  - apply (proj2 (constructors_need_er_and_en
                    (Bus.mk x00 (Some 0) (Some false) None)));
      discriminate.
Defined.

(** * Further properties of GmiiFrame *)

Lemma markers_of_normalized (f : GmiiFrame.t) :
  markers (GmiiFrame.mk (GmiiFrame.data f) (Some (markers f))
             (GmiiFrame.rx_sim_time f))
  = markers f.
Proof.
  unfold markers at 1. simpl.
  rewrite firstn_all2 by (rewrite markers_length; apply Nat.le_refl).
  rewrite markers_length, Nat.sub_diag. apply app_nil_r.
Qed.

Lemma normalize_ok_inv (f f1 : GmiiFrame.t) :
  GmiiFrame.normalize f = Ok f1 ->
  GmiiFrame.error f <> Some [] /\
  f1 = GmiiFrame.mk (GmiiFrame.data f) (Some (markers f))
         (GmiiFrame.rx_sim_time f).
Proof.
  intros H.
  assert (Hne : GmiiFrame.error f <> Some []).
  { intros He. unfold GmiiFrame.normalize in H. rewrite He in H. discriminate. }
  split; [exact Hne|]. rewrite (normalize_markers f Hne) in H.
  inversion H. reflexivity.
Qed.

(** X1: on a frame that has bytes, a second [normalize] changes nothing. *)
Theorem normalize_idempotent (f f1 : GmiiFrame.t) :
  GmiiFrame.data f <> [] ->
  GmiiFrame.normalize f = Ok f1 ->
  GmiiFrame.normalize f1 = Ok f1.
Proof.
  intros Hd H. apply normalize_ok_inv in H. destruct H as [_ H]. subst f1.
  rewrite normalize_markers.
  - simpl. rewrite markers_of_normalized. reflexivity.
  - simpl. intros E. inversion E as [Hm].
    pose proof (markers_length f) as Hl. rewrite Hm in Hl.
    destruct (GmiiFrame.data f); [congruence | discriminate].
Qed.

Lemma normalize_idempotent_witness :
  GmiiFrame.normalize (GmiiFrame.mk [x01; x02; x03] (Some [1; 0; 0]) None)
  = Ok (GmiiFrame.mk [x01; x02; x03] (Some [1; 0; 0]) None).
Proof.
  apply (normalize_idempotent (GmiiFrame.mk [x01; x02; x03] (Some [1; 0]) None)).
  - discriminate.
  - reflexivity.
Defined.

(** X2: on a frame without bytes [normalize] returns once, leaving an empty
    error list, and raises [IndexError] when called again. *)
Theorem normalize_twice_on_empty_frame_raises (f f1 : GmiiFrame.t) :
  GmiiFrame.data f = [] ->
  GmiiFrame.normalize f = Ok f1 ->
  GmiiFrame.error f1 = Some [] /\
  GmiiFrame.normalize f1 = Raise IndexError.
Proof.
  intros Hd H. apply normalize_ok_inv in H. destruct H as [_ H]. subst f1.
  pose proof (markers_length f) as Hl. rewrite Hd in Hl.
  destruct (markers f) as [|m ms]; [|discriminate].
  split; reflexivity.
Qed.

Lemma normalize_twice_on_empty_frame_raises_witness :
  GmiiFrame.error (GmiiFrame.mk [] (Some []) (Some 3)) = Some [] /\
  GmiiFrame.normalize (GmiiFrame.mk [] (Some []) (Some 3)) = Raise IndexError.
Proof.
  apply (normalize_twice_on_empty_frame_raises
           (GmiiFrame.mk [] None (Some 3))).
  - reflexivity.
  - reflexivity.
Defined.

(** X3: [normalize] followed by [compact] returns, and on a frame whose
    markers are all zero (an absent error list among them) the result is
    the frame with its error list absent; otherwise the result carries the
    padded list. *)
Theorem normalize_then_compact (f : GmiiFrame.t) :
  GmiiFrame.error f <> Some [] ->
  (x <- GmiiFrame.normalize f ;; GmiiFrame.compact x)
  = Ok (GmiiFrame.mk (GmiiFrame.data f)
          (if any (markers f) then Some (markers f) else None)
          (GmiiFrame.rx_sim_time f)) /\
  (GmiiFrame.error f = None ->
   (x <- GmiiFrame.normalize f ;; GmiiFrame.compact x) = Ok f).
Proof.
  intros Hne. rewrite (normalize_markers f Hne). simpl.
  unfold GmiiFrame.compact. simpl. split.
  - destruct (any (markers f)); reflexivity.
  - intros He. unfold markers. rewrite He.
    assert (Hz : any (repeat 0 (length (GmiiFrame.data f))) = false).
    { apply any_false_iff, Forall_forall. intros v Hv.
      apply repeat_spec in Hv. exact Hv. }
    rewrite Hz. destruct f as [d e t]. simpl in *. subst e. reflexivity.
Qed.

Lemma normalize_then_compact_witness :
  (x <- GmiiFrame.normalize (GmiiFrame.mk [x01; x02] None None) ;;
   GmiiFrame.compact x)
  = Ok (GmiiFrame.mk [x01; x02] None None).
Proof.
  assert (H : GmiiFrame.error (GmiiFrame.mk [x01; x02] None None) <> Some [])
    by discriminate.
  apply (proj2 (normalize_then_compact _ H)). reflexivity.
Defined.

(** X4: [get_preamble] and [get_payload] never raise and cut [data] in two
    at offset 8; on a frame of at most 8 bytes the payload is empty and the
    preamble is the whole frame; on [from_payload] with an 8-byte preamble
    they return the preamble and the payload. *)
Theorem preamble_payload_split (f : GmiiFrame.t) :
  GmiiFrame.get_preamble f ++ GmiiFrame.get_payload f = GmiiFrame.data f /\
  length (GmiiFrame.get_preamble f) = Nat.min 8 (length (GmiiFrame.data f)) /\
  ((length (GmiiFrame.data f) <= 8)%nat ->
   GmiiFrame.get_preamble f = GmiiFrame.data f /\
   GmiiFrame.get_payload f = []) /\
  (forall pre payload,
     length pre = 8%nat ->
     f = GmiiFrame.from_payload pre payload ->
     GmiiFrame.get_preamble f = pre /\ GmiiFrame.get_payload f = payload).
Proof.
  unfold GmiiFrame.get_preamble, GmiiFrame.get_payload.
  split; [apply firstn_skipn|]. split; [apply length_firstn|]. split.
  - intros H. split; [apply firstn_all2, H | apply skipn_all2, H].
  - intros pre payload Hpre Hf. subst f.
    unfold GmiiFrame.from_payload, GmiiFrame.init. cbn [GmiiFrame.data].
    rewrite <- Hpre. split.
    + rewrite firstn_app, firstn_all, Nat.sub_diag. apply app_nil_r.
    + rewrite skipn_app, skipn_all, Nat.sub_diag. reflexivity.
Qed.

Lemma preamble_payload_split_witness :
  GmiiFrame.get_preamble (GmiiFrame.mk [x55; x55; xd5] None None)
  = [x55; x55; xd5] /\
  GmiiFrame.get_payload (GmiiFrame.mk [x55; x55; xd5] None None) = [].
Proof.
  apply (proj1 (proj2 (proj2 (preamble_payload_split
                                (GmiiFrame.mk [x55; x55; xd5] None None))))).
  simpl. lia.
Defined.

(** * Further properties of the source *)

Lemma last_cons_default {A : Type} (l : list A) : forall x d,
  last (x :: l) d = last l x.
Proof.
  induction l as [|y l IH]; intros x d; [reflexivity|].
  change (last (x :: y :: l) d) with (last (y :: l) d).
  rewrite IH. symmetry. apply IH.
Qed.

Lemma run_last_bus ps : forall s b s' b' tr,
  GmiiSource.run ps s b = Ok (s', b', tr) -> b' = last tr b.
Proof.
  induction ps as [|p ps IH]; intros s b s' b' tr; simpl.
  - intros E. inversion E. reflexivity.
  - destruct (GmiiSource.step p s b) as [[s1 b1]|]; simpl; [|discriminate].
    destruct (GmiiSource.run ps s1 b1) as [[[s2 b2] tr2]|] eqn:Hr; simpl;
      [|discriminate].
    intros E. inversion E. subst. apply IH in Hr. subst.
    symmetry. apply last_cons_default.
Qed.

Lemma run_source_inv ps : forall s b s' b' tr,
  source_inv s b ->
  GmiiSource.run ps s b = Ok (s', b', tr) -> source_inv s' b'.
Proof.
  induction ps as [|p ps IH]; intros s b s' b' tr Hinv; simpl.
  - intros E. inversion E. subst. exact Hinv.
  - destruct (GmiiSource.step p s b) as [[s1 b1]|] eqn:Hs; simpl; [|discriminate].
    destruct (GmiiSource.run ps s1 b1) as [[[s2 b2] tr2]|] eqn:Hr; simpl;
      [|discriminate].
    intros E. inversion E. subst.
    eapply IH; [|exact Hr]. eapply source_step_inv; eauto.
Qed.

Lemma run_split ps1 ps2 s b s2 b2 tr :
  GmiiSource.run (ps1 ++ ps2) s b = Ok (s2, b2, tr) ->
  exists s1 b1 tr1 tr2,
    GmiiSource.run ps1 s b = Ok (s1, b1, tr1) /\
    GmiiSource.run ps2 s1 b1 = Ok (s2, b2, tr2) /\
    tr = tr1 ++ tr2.
Proof.
  rewrite run_app.
  destruct (GmiiSource.run ps1 s b) as [[[s1 b1] tr1]|]; simpl; [|discriminate].
  destruct (GmiiSource.run ps2 s1 b1) as [[[s2' b2'] tr2]|] eqn:Hr; simpl;
    [|discriminate].
  intros E. inversion E. subst. exists s1, b1, tr1, tr2. auto.
Qed.

Lemma init_of_frame (f : GmiiFrame.t) (e : option (list Z)) :
  GmiiFrame.init (GmiiFrame.OfFrame f) e = f.
Proof. destruct f. reflexivity. Qed.

(** With nothing queued the source stays as it is, the bus idle. *)
Lemma run_idle_keeps ps : forall s b v0,
  GmiiSource.frame s = None ->
  GmiiSource.queue s = [] ->
  Bus.en b = Some v0 ->
  Forall quiet ps ->
  exists s' b',
    GmiiSource.run ps s b = Ok (s', b', repeat (idle_beat b) (length ps)) /\
    same_wires b b' /\
    GmiiSource.frame s' = None /\
    GmiiSource.queue s' = [] /\
    GmiiSource.ifg s' = GmiiSource.ifg s /\
    GmiiSource.queue_occupancy_bytes s' = GmiiSource.queue_occupancy_bytes s /\
    GmiiSource.queue_occupancy_frames s' = GmiiSource.queue_occupancy_frames s.
Proof.
  induction ps as [|p ps IH]; intros s b v0 Hf Hq Hen Hps.
  - exists s, b. split; [reflexivity|]. split; [apply same_wires_refl|]. auto 10.
  - inversion Hps as [|? ? Hp Hps']; subst.
    pose proof (step_no_frame p s b v0 Hp Hf (or_intror Hq) Hen) as Hstep.
    pose proof (same_wires_beat b v0 false x00 0 Hen) as Hw.
    match type of Hstep with _ = Ok (?s1, ?b1) =>
      destruct (IH s1 b1 false eq_refl Hq eq_refl Hps')
        as [s' [b' [Hrun [Hw' [H1 [H2 [H3 [H4 H5]]]]]]]]
    end.
    exists s', b'. split.
    + change (repeat (idle_beat b) (length (p :: ps)))
        with (idle_beat b :: repeat (idle_beat b) (length ps)).
      eapply run_cons_ok; [exact Hstep|].
      etransitivity; [exact Hrun|].
      rewrite (idle_beat_same_wires b (idle_beat b) Hw). reflexivity.
    + split; [eapply same_wires_trans; eauto|]. simpl in *. auto 10.
Qed.

(** Any number of queued frames: each one's bytes, then the gap. *)
Lemma run_frames fs : forall s b v0 ps,
  GmiiSource.frame s = None ->
  GmiiSource.ifg_cnt s <= 0 ->
  GmiiSource.queue s = fs ->
  Forall sendable fs ->
  Bus.en b = Some v0 ->
  Forall quiet ps ->
  length ps = wire_cycles (Z.to_nat (Z.max (GmiiSource.ifg s) 1)) fs ->
  exists s' b',
    GmiiSource.run ps s b
    = Ok (s', b', wire b (Z.to_nat (Z.max (GmiiSource.ifg s) 1)) fs) /\
    same_wires b b' /\
    GmiiSource.frame s' = None /\
    GmiiSource.ifg_cnt s' <= 0 /\
    GmiiSource.queue s' = [] /\
    GmiiSource.ifg s' = GmiiSource.ifg s /\
    GmiiSource.queue_occupancy_bytes s'
    = GmiiSource.queue_occupancy_bytes s - total_bytes fs /\
    GmiiSource.queue_occupancy_frames s'
    = GmiiSource.queue_occupancy_frames s - Z.of_nat (length fs).
Proof.
  induction fs as [|f fs IH]; intros s b v0 ps Hf Hc Hq Hs Hen Hps Hlen.
  - destruct ps; [|discriminate]. exists s, b. simpl.
    split; [reflexivity|]. split; [apply same_wires_refl|].
    repeat split; auto; lia.
  - simpl in Hlen.
    destruct (split_cycles ps _ _ Hlen) as [ps1 [ps23 [E1 [L1 L23]]]].
    destruct (split_cycles ps23 _ _ L23) as [ps2 [ps3 [E2 [L2 L3]]]].
    subst ps ps23.
    apply Forall_app in Hps. destruct Hps as [Hps1 Hps].
    apply Forall_app in Hps. destruct Hps as [Hps2 Hps3].
    inversion Hs as [|? ? Hsf Hs']; subst.
    destruct (run_frame s b v0 f fs ps1 Hf Hc Hq Hsf Hen Hps1 L1)
      as [b1 [Hrun1 Hw1]].
    destruct (same_wires_en _ _ _ Hw1 Hen) as [v1 Hen1].
    match type of Hrun1 with _ = Ok (?s1, _, _) =>
      destruct (run_gap (Z.to_nat (Z.max (GmiiSource.ifg s) 1)) s1 b1 v1 ps2)
        as [s2 [b2 [Hrun2 [Hw2 [F2 [C2 [Q2 [G2 [B2 N2]]]]]]]]]
    end; try reflexivity; try assumption.
    { simpl. lia. }
    simpl in Q2, G2, B2, N2.
    destruct (same_wires_en _ _ _ Hw2 Hen1) as [v2 Hen2].
    destruct (IH s2 b2 v2 ps3) as [s3 [b3 [Hrun3 [Hw3 [F3 [C3 [Q3 [G3 [B3 N3]]]]]]]]];
      try assumption.
    { lia. }
    { rewrite G2. exact L3. }
    rewrite G2 in Hrun3.
    rewrite (idle_beat_same_wires _ _ Hw1) in Hrun2.
    assert (Hw02 : same_wires b b2) by (eapply same_wires_trans; eauto).
    assert (Hwire : forall g l, wire b2 g l = wire b g l).
    { intros g l. induction l as [|a l IHl]; simpl; [reflexivity|].
      rewrite IHl, (beats_same_wires _ _ _ _ Hw02),
        (idle_beat_same_wires _ _ Hw02). reflexivity. }
    rewrite Hwire in Hrun3.
    exists s3, b3. split.
    + simpl. eapply run_app_ok; [exact Hrun1|].
      eapply run_app_ok; [exact Hrun2|]. exact Hrun3.
    + split; [eapply same_wires_trans; eauto|].
      simpl. rewrite B3, N3, B2, N2, G3, G2.
      repeat split; auto; lia.
Qed.

Lemma idle_cycles_wire b gap fs :
  idle_cycles (wire b gap fs) = (length fs * gap)%nat.
Proof.
  induction fs as [|f fs IH]; [reflexivity|].
  simpl. rewrite !idle_cycles_app, idle_cycles_beats, idle_cycles_gap, IH.
  reflexivity.
Qed.

(** X5: for any number of queued sendable frames and any [ifg], negative
    values included, the source (reset low, enable true) drives each frame's
    bytes with their markers, in queue order, each frame followed by
    [max(ifg, 1)] cycles with valid low; it ends with its queue empty and
    both counters lowered by what left the queue. *)
Theorem queued_frames_leave_in_order s b v0 ps :
  GmiiSource.frame s = None ->
  GmiiSource.ifg_cnt s <= 0 ->
  Forall sendable (GmiiSource.queue s) ->
  Forall bit_markers (GmiiSource.queue s) ->
  Bus.en b = Some v0 ->
  Forall quiet ps ->
  length ps
  = wire_cycles (Z.to_nat (Z.max (GmiiSource.ifg s) 1)) (GmiiSource.queue s) ->
  exists s' b',
    GmiiSource.run ps s b
    = Ok (s', b',
          wire b (Z.to_nat (Z.max (GmiiSource.ifg s) 1)) (GmiiSource.queue s)) /\
    idle_cycles (wire b (Z.to_nat (Z.max (GmiiSource.ifg s) 1))
                   (GmiiSource.queue s))
    = (length (GmiiSource.queue s) * Z.to_nat (Z.max (GmiiSource.ifg s) 1))%nat /\
    (1 <= Z.to_nat (Z.max (GmiiSource.ifg s) 1))%nat /\
    GmiiSource.queue s' = [] /\
    GmiiSource.queue_occupancy_bytes s'
    = GmiiSource.queue_occupancy_bytes s - total_bytes (GmiiSource.queue s) /\
    GmiiSource.queue_occupancy_frames s'
    = GmiiSource.queue_occupancy_frames s
      - Z.of_nat (length (GmiiSource.queue s)).
Proof.
  intros Hf Hc Hs _ Hen Hps Hlen.
  destruct (run_frames (GmiiSource.queue s) s b v0 ps Hf Hc eq_refl Hs Hen Hps Hlen)
    as [s' [b' [Hrun [_ [_ [_ [Hq [_ [Hb Hn]]]]]]]]].
  exists s', b'. split; [exact Hrun|]. split; [apply idle_cycles_wire|].
  split; [lia|]. auto.
Qed.

Ltac list_facts :=
  repeat first [apply Forall_nil | apply Forall_cons];
  unfold bit_markers; simpl;
  repeat first [apply Forall_nil | apply Forall_cons]; auto.

Lemma queued_frames_leave_in_order_witness :
  exists s' b',
    GmiiSource.run (repeat (mkPins None None) 5)
      (GmiiSource.send (GmiiFrame.OfBytes [x0a])
         (GmiiSource.send
            (GmiiFrame.OfFrame (GmiiFrame.mk [x01; x02] (Some [1]) None))
            (GmiiSource.set_ifg (-4) GmiiSource.init)))
      (Bus.mk x00 (Some 0) (Some false) None)
    = Ok (s', b',
          [Bus.mk x01 (Some 1) (Some true) None;
           Bus.mk x02 (Some 1) (Some true) None;
           Bus.mk x00 (Some 0) (Some false) None;
           Bus.mk x0a (Some 0) (Some true) None;
           Bus.mk x00 (Some 0) (Some false) None]) /\
    2%nat = 2%nat /\
    (1 <= 1)%nat /\
    GmiiSource.queue s' = [] /\
    GmiiSource.queue_occupancy_bytes s' = 3 - 3 /\
    GmiiSource.queue_occupancy_frames s' = 2 - 2.
Proof.
  apply (queued_frames_leave_in_order
           (GmiiSource.send (GmiiFrame.OfBytes [x0a])
              (GmiiSource.send
                 (GmiiFrame.OfFrame (GmiiFrame.mk [x01; x02] (Some [1]) None))
                 (GmiiSource.set_ifg (-4) GmiiSource.init)))
           (Bus.mk x00 (Some 0) (Some false) None) false
           (repeat (mkPins None None) 5)).
  - reflexivity.
  - simpl. lia.
  - repeat constructor; discriminate.
  - list_facts.
  - reflexivity.
  - repeat constructor.
  - reflexivity.
Defined.

(** X6: a turn of the source loop with reset asserted drops whatever frame is
    in flight and whatever gap is pending, drives the bus idle and leaves
    the queue and both counters as they are; on the cycles that follow
    (reset low, enable true) the head of the queue goes out at once and in
    full, and no byte of the dropped frame is driven. *)
Theorem reset_drops_frame_in_flight p s b v0 f q ps :
  reset_asserted p = true ->
  Bus.en b = Some v0 ->
  GmiiSource.queue s = f :: q ->
  sendable f ->
  bit_markers f ->
  Forall quiet ps ->
  length ps = length (GmiiFrame.data f) ->
  GmiiSource.step p s b
  = Ok (GmiiSource.mk false (GmiiSource.queue s) (GmiiSource.ifg s)
          (GmiiSource.queue_occupancy_bytes s)
          (GmiiSource.queue_occupancy_frames s) None 0,
        idle_beat b) /\
  exists s' b',
    GmiiSource.run (p :: ps) s b
    = Ok (s', b', idle_beat b :: beats b (GmiiFrame.data f) (markers f)) /\
    GmiiSource.queue s' = q /\
    GmiiSource.frame s' = None.
Proof.
  intros Hr Hen Hq Hs _ Hps Hlen.
  assert (Hstep : GmiiSource.step p s b
                  = Ok (GmiiSource.mk false (GmiiSource.queue s) (GmiiSource.ifg s)
                          (GmiiSource.queue_occupancy_bytes s)
                          (GmiiSource.queue_occupancy_frames s) None 0,
                        idle_beat b)).
  { unfold GmiiSource.step. rewrite Hr. unfold GmiiSource.on_reset.
    rewrite (drive_beat b v0 false x00 0 Hen). reflexivity. }
  split; [exact Hstep|].
  pose proof (same_wires_beat b v0 false x00 0 Hen) as Hw.
  match type of Hstep with _ = Ok (?s1, ?b1) =>
    destruct (run_frame s1 b1 false f q ps) as [b' [Hrun Hw']]
  end; try assumption; try reflexivity.
  rewrite (beats_same_wires b (idle_beat b)) in Hrun by exact Hw.
  eexists. eexists. split.
  - eapply run_cons_ok; [exact Hstep | exact Hrun].
  - split; reflexivity.
Qed.

Lemma reset_drops_frame_in_flight_witness :
  GmiiSource.step (mkPins (Some true) None)
    (GmiiSource.mk true [GmiiFrame.mk [x0a; x0b] None None] 12 2 1
       (Some (GmiiFrame.mk [x03; x04] (Some [0; 0]) None)) 0)
    (Bus.mk x02 (Some 0) (Some true) None)
  = Ok (GmiiSource.mk false [GmiiFrame.mk [x0a; x0b] None None] 12 2 1 None 0,
        Bus.mk x00 (Some 0) (Some false) None) /\
  exists s' b',
    GmiiSource.run (mkPins (Some true) None :: repeat (mkPins (Some false) None) 2)
      (GmiiSource.mk true [GmiiFrame.mk [x0a; x0b] None None] 12 2 1
         (Some (GmiiFrame.mk [x03; x04] (Some [0; 0]) None)) 0)
      (Bus.mk x02 (Some 0) (Some true) None)
    = Ok (s', b',
          [Bus.mk x00 (Some 0) (Some false) None;
           Bus.mk x0a (Some 0) (Some true) None;
           Bus.mk x0b (Some 0) (Some true) None]) /\
    GmiiSource.queue s' = [] /\
    GmiiSource.frame s' = None.
Proof.
  apply (reset_drops_frame_in_flight (mkPins (Some true) None)
           (GmiiSource.mk true [GmiiFrame.mk [x0a; x0b] None None] 12 2 1
              (Some (GmiiFrame.mk [x03; x04] (Some [0; 0]) None)) 0)
           (Bus.mk x02 (Some 0) (Some true) None) true
           (GmiiFrame.mk [x0a; x0b] None None) []
           (repeat (mkPins (Some false) None) 2)).
  - reflexivity.
  - reflexivity.
  - reflexivity.
  - split; discriminate.
  - list_facts.
  - repeat constructor.
  - reflexivity.
Defined.

Lemma run_paused n p : forall s b,
  reset_asserted p = false -> enabled p = false ->
  GmiiSource.run (repeat p n) s b = Ok (s, b, repeat b n).
Proof.
  induction n as [|n IH]; intros s b Hr He; [reflexivity|].
  simpl. unfold GmiiSource.step at 1. rewrite Hr, He. simpl.
  rewrite (IH s b Hr He). reflexivity.
Qed.

(** X7: cycles with enable de-asserted (and reset low), inserted anywhere in
    a run, change neither the state the source ends in nor what it drives
    before and after them; during them the bus keeps the values it had, a
    byte being sent staying on the bus with valid high. *)
Theorem pause_holds_bus_and_position n p ps1 ps2 s b s2 b2 tr :
  reset_asserted p = false ->
  enabled p = false ->
  GmiiSource.run (ps1 ++ ps2) s b = Ok (s2, b2, tr) ->
  exists tr1 tr2,
    tr = tr1 ++ tr2 /\
    length tr1 = length ps1 /\
    GmiiSource.run (ps1 ++ repeat p n ++ ps2) s b
    = Ok (s2, b2, tr1 ++ repeat (last tr1 b) n ++ tr2).
Proof.
  intros Hr He Hrun.
  destruct (run_split _ _ _ _ _ _ _ Hrun) as [s1 [b1 [tr1 [tr2 [H1 [H2 Htr]]]]]].
  exists tr1, tr2. split; [exact Htr|]. split.
  - clear - H1. revert s b s1 b1 tr1 H1.
    induction ps1 as [|q ps1 IH]; intros s b s1 b1 tr1; simpl.
    + intros E. inversion E. reflexivity.
    + destruct (GmiiSource.step q s b) as [[s' b']|]; simpl; [|discriminate].
      destruct (GmiiSource.run ps1 s' b') as [[[s'' b''] tr']|] eqn:Hr; simpl;
        [|discriminate].
      intros E. inversion E. subst. simpl. f_equal. eapply IH. exact Hr.
  - rewrite <- (run_last_bus _ _ _ _ _ _ H1).
    eapply run_app_ok; [exact H1|].
    eapply run_app_ok; [apply run_paused; assumption | exact H2].
Qed.

Lemma pause_holds_bus_and_position_witness :
  exists tr1 tr2,
    [Bus.mk x01 None (Some true) None; Bus.mk x02 None (Some true) None;
     Bus.mk x00 None (Some false) None] = tr1 ++ tr2 /\
    length tr1 = 1%nat /\
    GmiiSource.run
      ([mkPins None None] ++ repeat (mkPins None (Some false)) 2
       ++ [mkPins None None; mkPins None None])
      (GmiiSource.send (GmiiFrame.OfBytes [x01; x02]) GmiiSource.init)
      (Bus.mk x00 None (Some false) None)
    = Ok (GmiiSource.mk false [] 12 0 0 None 11,
          Bus.mk x00 None (Some false) None,
          tr1 ++ repeat (last tr1 (Bus.mk x00 None (Some false) None)) 2 ++ tr2).
Proof.
  apply (pause_holds_bus_and_position 2 (mkPins None (Some false))
           [mkPins None None] [mkPins None None; mkPins None None]
           (GmiiSource.send (GmiiFrame.OfBytes [x01; x02]) GmiiSource.init)
           (Bus.mk x00 None (Some false) None)).
  - reflexivity.
  - reflexivity.
  - reflexivity.
Defined.

Lemma Forall_firstn_keeps {A : Type} (P : A -> Prop) (l : list A) : forall k,
  Forall P l -> Forall P (firstn k l).
Proof.
  induction l as [|x l IH]; intros k H.
  - rewrite firstn_nil. constructor.
  - destruct k; [constructor|]. inversion H; subst. simpl.
    constructor; [assumption | apply IH; assumption].
Qed.

Lemma beats_valid b xs ms :
  Forall (fun x => Bus.en x = Some true) (beats b xs ms).
Proof.
  revert ms. induction xs as [|x xs IH]; intros ms; simpl; constructor.
  - reflexivity.
  - apply IH.
Qed.

Lemma run_length ps : forall s b s' b' tr,
  GmiiSource.run ps s b = Ok (s', b', tr) -> length tr = length ps.
Proof.
  induction ps as [|p ps IH]; intros s b s' b' tr; simpl.
  - intros E. inversion E. reflexivity.
  - destruct (GmiiSource.step p s b) as [[s1 b1]|]; simpl; [|discriminate].
    destruct (GmiiSource.run ps s1 b1) as [[[s2 b2] tr2]|] eqn:Hr; simpl;
      [|discriminate].
    intros E. inversion E. subst. simpl. f_equal. eapply IH. exact Hr.
Qed.

Lemma last_in {A : Type} (l : list A) (d : A) : l <> [] -> In (last l d) l.
Proof.
  intros H. rewrite (app_removelast_last d H) at 2.
  apply in_or_app. right. left. reflexivity.
Qed.

(** X8: what [wait()] polls.  A source with one sendable frame of [L] bytes
    queued, nothing in flight and no gap pending, clocked with reset low and
    enable true: [idle()] is false before the first clock edge and after
    each of the first [L] edges, and true after every later edge. *)
Theorem source_idle_after_frame s b v0 f ps :
  source_inv s b ->
  GmiiSource.frame s = None ->
  GmiiSource.ifg_cnt s <= 0 ->
  GmiiSource.queue s = [f] ->
  sendable f ->
  Bus.en b = Some v0 ->
  Forall quiet ps ->
  exists s' b' tr,
    GmiiSource.run ps s b = Ok (s', b', tr) /\
    (GmiiSource.idle s' = true <->
     (length (GmiiFrame.data f) < length ps)%nat).
Proof.
  intros Hinv Hf Hc Hq Hs Hen Hps.
  destruct (Nat.lt_ge_cases (length (GmiiFrame.data f)) (length ps)) as [Hlt|Hge].
  - assert (Hn : exists n, length ps = (length (GmiiFrame.data f) + S n)%nat).
    { exists (length ps - S (length (GmiiFrame.data f)))%nat. lia. }
    destruct Hn as [n Hn].
    destruct (run_one_frame s b v0 f (S n) ps Hf Hc Hq Hs Hen Hps Hn)
      as [s' [b' [Hrun Hq']]].
    eexists. eexists. eexists. split; [exact Hrun|].
    split; [intros _; exact Hlt|]. intros _.
    pose proof (run_source_inv _ _ _ _ _ _ Hinv Hrun) as [_ Hact].
    pose proof (run_last_bus _ _ _ _ _ _ Hrun) as Hb'.
    change (repeat (idle_beat b) (S n))
      with (idle_beat b :: repeat (idle_beat b) n) in Hb'.
    rewrite repeat_cons, app_assoc, last_last in Hb'.
    unfold GmiiSource.idle, GmiiSource.empty. rewrite Hq'.
    rewrite <- (Hact false); [reflexivity|]. rewrite Hb'. reflexivity.
  - set (m := (length (GmiiFrame.data f) + 1 - length ps)%nat).
    assert (Hps' : Forall quiet (ps ++ repeat (mkPins None None) m)).
    { apply Forall_app. split; [exact Hps|].
      apply Forall_forall. intros x Hx. apply repeat_spec in Hx. subst x.
      split; reflexivity. }
    assert (Hlen : length (ps ++ repeat (mkPins None None) m)
                   = (length (GmiiFrame.data f) + 1)%nat).
    { rewrite length_app, repeat_length. unfold m. lia. }
    destruct (run_one_frame s b v0 f 1 _ Hf Hc Hq Hs Hen Hps' Hlen)
      as [s2 [b2 [Hrun _]]].
    destruct (run_split _ _ _ _ _ _ _ Hrun)
      as [s1 [b1 [tr1 [tr2 [H1 [_ Htr]]]]]].
    exists s1, b1, tr1. split; [exact H1|].
    split; [|intros Hlt; lia]. intros Hidle. exfalso.
    pose proof (run_length _ _ _ _ _ _ H1) as Hl1.
    pose proof (run_last_bus _ _ _ _ _ _ H1) as Hb1.
    pose proof (run_source_inv _ _ _ _ _ _ Hinv H1) as [_ Hact].
    unfold GmiiSource.idle in Hidle. apply andb_true_iff in Hidle.
    destruct Hidle as [Hemp Hna]. apply negb_true_iff in Hna.
    destruct ps as [|p ps].
    + simpl in H1. inversion H1. subst s1.
      unfold GmiiSource.empty in Hemp. rewrite Hq in Hemp. discriminate.
    + assert (Htr1 : tr1 = firstn (length tr1)
                             (beats b (GmiiFrame.data f) (markers f))).
      { assert (E : firstn (length tr1) (tr1 ++ tr2) = tr1).
        { rewrite firstn_app, firstn_all, Nat.sub_diag. apply app_nil_r. }
        rewrite <- Htr, firstn_app in E.
        replace (length tr1 - length (beats b (GmiiFrame.data f) (markers f)))%nat
          with 0%nat in E
          by (rewrite beats_length, Hl1; clear - Hge; cbn [length] in *; lia).
        rewrite app_nil_r in E. symmetry. exact E. }
      assert (Hne : tr1 <> []) by (destruct tr1; [discriminate Hl1 | discriminate]).
      pose proof (last_in tr1 b Hne) as Hin. rewrite <- Hb1 in Hin.
      rewrite Htr1 in Hin.
      pose proof (Forall_firstn_keeps _ _ (length tr1) (beats_valid b
                    (GmiiFrame.data f) (markers f))) as Hall.
      rewrite Forall_forall in Hall. specialize (Hall b1 Hin).
      rewrite <- (Hact true Hall) in Hna. discriminate.
Qed.

Lemma source_idle_after_frame_witness :
  exists s' b' tr,
    GmiiSource.run (repeat (mkPins None None) 3)
      (GmiiSource.send (GmiiFrame.OfBytes [x01; x02]) GmiiSource.init)
      (Bus.mk x00 None (Some false) None)
    = Ok (s', b', tr) /\
    (GmiiSource.idle s' = true <-> (2 < 3)%nat).
Proof.
  apply (source_idle_after_frame
           (GmiiSource.send (GmiiFrame.OfBytes [x01; x02]) GmiiSource.init)
           (Bus.mk x00 None (Some false) None) false
           (GmiiFrame.mk [x01; x02] None None)
           (repeat (mkPins None None) 3)).
  - split.
    + intros f Hf. discriminate.
    + intros v Hv. inversion Hv. reflexivity.
  - reflexivity.
  - simpl. lia.
  - reflexivity.
  - split; discriminate.
  - reflexivity.
  - repeat constructor.
Defined.

(** * Further properties of the sink *)

Lemma sink_step_end_any p now snk b xs zs t :
  quiet p ->
  GmiiSink.frame snk = Some (GmiiFrame.mk xs (Some zs) t) ->
  GmiiSink.step p now snk (idle_beat b)
  = Ok (GmiiSink.mk (GmiiSink.active snk)
          (GmiiSink.queue snk
           ++ [GmiiFrame.mk xs (if any zs then Some zs else None) t])
          true
          (GmiiSink.queue_occupancy_bytes snk + Z.of_nat (length xs))
          (GmiiSink.queue_occupancy_frames snk + 1)
          None).
Proof.
  intros [Hr He] Hf. unfold GmiiSink.step. rewrite Hr, He. simpl.
  unfold GmiiSink.delimit. rewrite Hf. simpl.
  unfold GmiiFrame.compact. simpl.
  destruct (any zs); reflexivity.
Qed.

(** Bytes driven with markers [ms] extend the frame being received. *)
Lemma feed_bytes_any b xs : forall ms ks snk pre zs t,
  GmiiSink.frame snk = Some (GmiiFrame.mk pre (Some zs) t) ->
  length ms = length xs ->
  Forall sink_quiet ks ->
  length ks = length xs ->
  feed ks (beats b xs ms) snk
  = Ok (GmiiSink.mk (GmiiSink.active snk) (GmiiSink.queue snk)
          (GmiiSink.sync snk) (GmiiSink.queue_occupancy_bytes snk)
          (GmiiSink.queue_occupancy_frames snk)
          (Some (GmiiFrame.mk (pre ++ xs) (Some (zs ++ sampled b ms)) t))).
Proof.
  induction xs as [|x xs IH]; intros ms ks snk pre zs t Hf Hms Hq Hlen.
  - destruct ks; [|discriminate]. destruct ms; [|discriminate].
    simpl. rewrite !app_nil_r, <- Hf. destruct snk; reflexivity.
  - destruct ks as [|k ks]; [discriminate|].
    destruct ms as [|m ms]; [discriminate|].
    inversion Hq as [|? ? Hk Hq']; subst.
    simpl. rewrite (sink_step_byte _ _ snk b x m pre zs t Hk Hf). simpl.
    match goal with |- context [feed ks _ ?s1] =>
      rewrite (IH ms ks s1 (pre ++ [x]) (zs ++ [sampled_er b m]) t)
    end; try reflexivity; try assumption.
    + simpl. rewrite <- !app_assoc. reflexivity.
    + simpl in Hms. lia.
    + simpl in Hlen. lia.
Qed.

(** A whole frame followed by at least one idle cycle is enqueued once, with
    the markers that were sampled if one of them is set. *)
Lemma feed_frame_any b x xs ms n ks snk :
  GmiiSink.frame snk = None ->
  length ms = length (x :: xs) ->
  Forall sink_quiet ks ->
  length ks = (length (x :: xs) + S n)%nat ->
  exists t,
    feed ks (beats b (x :: xs) ms ++ repeat (idle_beat b) (S n)) snk
    = Ok (GmiiSink.mk (GmiiSink.active snk)
            (GmiiSink.queue snk
             ++ [GmiiFrame.mk (x :: xs)
                   (if any (sampled b ms) then Some (sampled b ms) else None)
                   (Some t)])
            true
            (GmiiSink.queue_occupancy_bytes snk + Z.of_nat (length (x :: xs)))
            (GmiiSink.queue_occupancy_frames snk + 1)
            None).
Proof.
  intros Hf Hms Hq Hlen.
  destruct (split_cycles ks _ _ Hlen) as [ks1 [ks2 [E [L1 L2]]]]. subst ks.
  apply Forall_app in Hq. destruct Hq as [Hq1 Hq2].
  destruct ks1 as [|k1 ks1]; [discriminate|].
  destruct ks2 as [|k2 ks2]; [discriminate|].
  destruct ms as [|m ms]; [discriminate|].
  inversion Hq1 as [|? ? Hk1 Hq1']; subst.
  inversion Hq2 as [|? ? Hk2 Hq2']; subst.
  exists (System.now k1).
  pose proof (sink_step_start _ (System.now k1) snk b x m Hk1 Hf) as Hstart.
  match type of Hstart with _ = Ok ?s1 =>
    pose proof (feed_bytes_any b xs ms ks1 s1 [x] [sampled_er b m]
                  (Some (System.now k1)) eq_refl) as Hfeed
  end.
  simpl in Hms, L1.
  specialize (Hfeed ltac:(lia) Hq1' ltac:(lia)).
  eapply feed_app.
  - simpl. rewrite beats_length. simpl in L1. lia.
  - simpl. rewrite Hstart. simpl. exact Hfeed.
  - simpl.
    match goal with |- context [GmiiSink.step _ _ ?s2 _] =>
      rewrite (sink_step_end_any _ (System.now k2) s2 b (x :: xs)
                 (sampled_er b m :: sampled b ms)
                 (Some (System.now k1)) Hk2 eq_refl)
    end.
    simpl. apply feed_idle; [reflexivity | exact Hq2'].
Qed.

Lemma wire_length b gap fs : length (wire b gap fs) = wire_cycles gap fs.
Proof.
  induction fs as [|f fs IH]; [reflexivity|].
  simpl. rewrite !length_app, beats_length, repeat_length, IH. reflexivity.
Qed.

(** The sink over the cycles of any number of frames: one enqueue each, in
    order. *)
Lemma feed_wire b gap fs : forall ks snk,
  GmiiSink.frame snk = None ->
  Forall sendable fs ->
  Forall sink_quiet ks ->
  length ks = wire_cycles (S gap) fs ->
  exists ts snk',
    length ts = length fs /\
    feed ks (wire b (S gap) fs) snk = Ok snk' /\
    GmiiSink.frame snk' = None /\
    GmiiSink.queue snk'
    = GmiiSink.queue snk
      ++ map (fun ft => received b (fst ft) (snd ft)) (combine fs ts) /\
    GmiiSink.active snk' = GmiiSink.active snk /\
    GmiiSink.queue_occupancy_bytes snk'
    = GmiiSink.queue_occupancy_bytes snk + total_bytes fs /\
    GmiiSink.queue_occupancy_frames snk'
    = GmiiSink.queue_occupancy_frames snk + Z.of_nat (length fs).
Proof.
  induction fs as [|f fs IH]; intros ks snk Hf Hs Hq Hlen.
  - exists [], snk. destruct ks; [|discriminate]. simpl.
    rewrite app_nil_r. repeat split; auto; lia.
  - inversion Hs as [|? ? Hsf Hs']; subst.
    assert (Hlen' : length ks
                    = ((length (GmiiFrame.data f) + S gap)
                       + wire_cycles (S gap) fs)%nat).
    { cbn [wire_cycles] in Hlen. lia. }
    destruct (split_cycles ks _ _ Hlen') as [ks1 [ks2 [E [L1 L2]]]]. subst ks.
    apply Forall_app in Hq. destruct Hq as [Hq1 Hq2].
    pose proof (markers_length f) as Hm.
    destruct Hsf as [Hd _].
    destruct (GmiiFrame.data f) as [|x xs] eqn:Hdata; [congruence|].
    destruct (feed_frame_any b x xs (markers f) gap ks1 snk Hf Hm Hq1 L1)
      as [t Hfeed1].
    match type of Hfeed1 with _ = Ok ?s1 =>
      destruct (IH ks2 s1 eq_refl Hs' Hq2 L2)
        as [ts [snk' [Hts [Hfeed2 [F [Q [A [B N]]]]]]]]
    end.
    exists (t :: ts), snk'. split; [simpl; lia|]. split.
    + cbn [wire]. rewrite Hdata, app_assoc.
      eapply feed_app; [|exact Hfeed1|exact Hfeed2].
      rewrite L1, length_app, beats_length, repeat_length. reflexivity.
    + split; [exact F|].
      cbn [GmiiSink.queue GmiiSink.active GmiiSink.queue_occupancy_bytes
           GmiiSink.queue_occupancy_frames] in Q, A, B, N.
      split.
      * rewrite Q, <- app_assoc. simpl. unfold received at 2. simpl.
        rewrite Hdata. reflexivity.
      * split; [exact A|]. rewrite B, N. cbn [total_bytes fold_right length].
        fold (total_bytes fs). unfold GmiiFrame.len. rewrite Hdata.
        cbn [length]. split; lia.
Qed.

(** What every state of a sink satisfies, whatever it samples. *)
Lemma sink_reach_inv (s : GmiiSink.t) :
  sink_reach s ->
  Forall frame_complete (GmiiSink.queue s) /\
  (forall f, GmiiSink.frame s = Some f -> frame_growing f) /\
  GmiiSink.active s = false /\
  (GmiiSink.queue s = [] \/ GmiiSink.sync s = true) /\
  sink_ok s.
Proof.
  intros Hr. induction Hr as [|p now b s s' Hr IH Hstep|s Hr IH|s Hr IH].
  - simpl. split; [constructor|]. split; [discriminate|].
    split; [reflexivity|]. split; [left; reflexivity|].
    split; reflexivity.
  - destruct IH as [Hq [Hf [Ha [Hs Hok]]]].
    pose proof (sink_step_ok _ _ _ _ _ Hok Hstep) as Hok'.
    revert Hstep. unfold GmiiSink.step.
    destruct (reset_asserted p).
    { intros E. inversion E. simpl. subst.
      split; [exact Hq|]. split; [discriminate|]. auto. }
    destruct (enabled p).
    2:{ intros E. inversion E. subst. auto. }
    destruct (Bus.dv_alias b) as [dv_val|]; [|discriminate].
    unfold GmiiSink.delimit, GmiiSink.append.
    destruct (GmiiSink.frame s) as [f|] eqn:Hfr.
    + destruct (Hf f eq_refl) as [Hd [Ht [e [He Hl]]]].
      destruct dv_val; simpl.
      * rewrite Hfr, He. intros E. inversion E. simpl. subst.
        split; [exact Hq|]. split; [|auto].
        intros g Hg. inversion Hg. split; simpl.
        -- intros Habs. apply app_eq_nil in Habs. destruct Habs. discriminate.
        -- split; [exact Ht|]. eexists. split; [reflexivity|].
           rewrite !length_app, Hl. reflexivity.
      * unfold GmiiFrame.compact. rewrite He.
        destruct (any e) eqn:Hany; simpl; intros E; inversion E; simpl; subst.
        -- split.
           { apply Forall_app. split; [exact Hq|]. constructor; [|constructor].
             split; [exact Hd|]. split; [exact Ht|]. right. exists e. auto. }
           split; [discriminate|]. auto.
        -- split.
           { apply Forall_app. split; [exact Hq|]. constructor; [|constructor].
             split; [exact Hd|]. split; [exact Ht|]. left. reflexivity. }
           split; [discriminate|]. auto.
    + destruct dv_val; simpl.
      * intros E. inversion E. simpl. subst.
        split; [exact Hq|]. split; [|auto].
        intros g Hg. inversion Hg. split; simpl; [discriminate|].
        split; [discriminate|]. eexists. split; reflexivity.
      * rewrite Hfr. intros E. inversion E. subst.
        split; [exact Hq|]. split; [|auto].
        intros g Hg. congruence.
  - destruct IH as [Hq [Hf [Ha [Hs Hok]]]].
    pose proof (sink_recv_ok _ Hok) as Hok'.
    destruct (GmiiSink.queue s) as [|f q] eqn:Hqs.
    + assert (E : snd (GmiiSink.recv s) = s).
      { unfold GmiiSink.recv. rewrite Hqs. reflexivity. }
      rewrite E in *. rewrite Hqs. auto.
    + assert (E : snd (GmiiSink.recv s)
                  = GmiiSink.mk (GmiiSink.active s) q (GmiiSink.sync s)
                      (GmiiSink.queue_occupancy_bytes s - GmiiFrame.len f)
                      (GmiiSink.queue_occupancy_frames s - 1)
                      (GmiiSink.frame s)).
      { unfold GmiiSink.recv. rewrite Hqs. reflexivity. }
      rewrite E in *. simpl.
      inversion Hq; subst. split; [assumption|]. split; [exact Hf|].
      split; [exact Ha|]. split; [|exact Hok'].
      destruct Hs as [Hs|Hs]; [discriminate | right; exact Hs].
  - destruct IH as [Hq [Hf [Ha [Hs Hok]]]].
    destruct (GmiiSink.queue s) as [|f q] eqn:Hqs.
    + assert (E : snd (wait_enter s)
                  = GmiiSink.mk (GmiiSink.active s) (GmiiSink.queue s) false
                      (GmiiSink.queue_occupancy_bytes s)
                      (GmiiSink.queue_occupancy_frames s) (GmiiSink.frame s)).
      { unfold wait_enter, GmiiSink.empty. rewrite Hqs. reflexivity. }
      rewrite E. simpl. rewrite Hqs. split; [constructor|].
      split; [exact Hf|]. split; [exact Ha|]. split; [left; reflexivity|].
      unfold sink_ok in *. simpl. rewrite ?Hqs. rewrite ?Hqs in Hok. exact Hok.
    + assert (E : snd (wait_enter s) = s).
      { unfold wait_enter, GmiiSink.empty. rewrite Hqs. reflexivity. }
      rewrite E, Hqs. auto.
Qed.

(** X9: whatever bus values the sink samples and however [recv] and [wait]
    calls interleave, every frame in its queue has at least one byte, has
    its [rx_sim_time] set, and has either no error list or an error list as
    long as its data with a marker set in it. *)
Theorem sink_queue_frames_complete (s : GmiiSink.t) :
  sink_reach s -> Forall frame_complete (GmiiSink.queue s).
Proof. intros Hr. apply (sink_reach_inv s Hr). Qed.

Lemma sink_queue_frames_complete_witness :
  Forall frame_complete [GmiiFrame.mk [x07] (Some [1]) (Some 5)].
Proof.
  apply (sink_queue_frames_complete
           (GmiiSink.mk false [GmiiFrame.mk [x07] (Some [1]) (Some 5)] true 1 1
              None)).
  apply (sink_reach_step (mkPins None None) 6
           (Bus.mk x00 (Some 0) None (Some false))
           (GmiiSink.mk false [] false 0 0
              (Some (GmiiFrame.mk [x07] (Some [1]) (Some 5))))).
  - apply (sink_reach_step (mkPins None None) 5
             (Bus.mk x07 (Some 1) None (Some true)) GmiiSink.init).
    + apply sink_reach_init.
    + reflexivity.
  - reflexivity.
Defined.

(** X10: [GmiiSink.idle()] is true in every state of a sink, also while a
    frame is being received: nothing in the class sets [active]. *)
Theorem sink_idle_always_true (s : GmiiSink.t) :
  sink_reach s -> GmiiSink.idle s = true.
Proof.
  intros Hr. destruct (sink_reach_inv s Hr) as [_ [_ [Ha _]]].
  unfold GmiiSink.idle. rewrite Ha. reflexivity.
Qed.

Lemma sink_idle_always_true_witness :
  GmiiSink.idle
    (GmiiSink.mk false [] false 0 0
       (Some (GmiiFrame.mk [x07] (Some [1]) (Some 5)))) = true.
Proof.
  apply sink_idle_always_true.
  apply (sink_reach_step (mkPins None None) 5
           (Bus.mk x07 (Some 1) None (Some true)) GmiiSink.init).
  - apply sink_reach_init.
  - reflexivity.
Defined.

(** X11: whenever the sink's queue is not empty its event is set: [wait]
    clears the event only on an empty queue and every enqueue sets it, so a
    [wait] that suspended finds the event set once a frame is there. *)
Theorem sink_event_set_when_queue_nonempty (s : GmiiSink.t) :
  sink_reach s ->
  GmiiSink.empty s = false -> GmiiSink.sync s = true.
Proof.
  intros Hr He. destruct (sink_reach_inv s Hr) as [_ [_ [_ [[Hq|Hs] _]]]].
  - unfold GmiiSink.empty in He. rewrite Hq in He. discriminate.
  - exact Hs.
Qed.

Lemma sink_event_set_when_queue_nonempty_witness :
  GmiiSink.sync
    (GmiiSink.mk false [GmiiFrame.mk [x07] None (Some 5)] true 1 1 None) = true.
Proof.
  apply sink_event_set_when_queue_nonempty; [|reflexivity].
  apply (sink_reach_step (mkPins None None) 6
           (Bus.mk x00 None None (Some false))
           (GmiiSink.mk false [] false 0 0
              (Some (GmiiFrame.mk [x07] (Some [0]) (Some 5))))).
  - apply (sink_reach_step (mkPins None None) 5
             (Bus.mk x07 None None (Some true))
             (snd (wait_enter GmiiSink.init))).
    + apply sink_reach_wait, sink_reach_init.
    + reflexivity.
  - reflexivity.
Defined.

(** X12: a turn of the sink loop either leaves the queue as it is, or
    appends exactly the frame it was assembling, compacted; the latter only
    on a turn out of reset, enabled, that samples valid low.  It then sets
    the event and has no frame in progress. *)
Theorem sink_enqueues_only_at_end_of_frame p now s b s' :
  GmiiSink.step p now s b = Ok s' ->
  GmiiSink.queue s' = GmiiSink.queue s \/
  (reset_asserted p = false /\ enabled p = true /\
   Bus.dv_alias b = Some false /\
   exists f f',
     GmiiSink.frame s = Some f /\
     GmiiFrame.compact f = Ok f' /\
     GmiiSink.queue s' = GmiiSink.queue s ++ [f'] /\
     GmiiSink.frame s' = None /\
     GmiiSink.sync s' = true).
Proof.
  unfold GmiiSink.step.
  destruct (reset_asserted p).
  { intros E. inversion E. left. reflexivity. }
  destruct (enabled p).
  2:{ intros E. inversion E. left. reflexivity. }
  destruct (Bus.dv_alias b) as [dv_val|]; [|discriminate].
  unfold GmiiSink.delimit, GmiiSink.append.
  destruct (GmiiSink.frame s) as [f|] eqn:Hfr.
  - destruct dv_val; simpl.
    + rewrite Hfr. destruct (GmiiFrame.error f); [|discriminate].
      intros E. inversion E. left. reflexivity.
    + destruct (GmiiFrame.compact f) as [f'|] eqn:Hc; simpl; [|discriminate].
      intros E. inversion E. right. repeat split.
      exists f, f'. simpl. auto.
  - destruct dv_val; simpl.
    + intros E. inversion E. left. reflexivity.
    + rewrite Hfr. intros E. inversion E. left. reflexivity.
Qed.

Lemma sink_enqueues_only_at_end_of_frame_witness :
  [GmiiFrame.mk [x07] None (Some 5)] = [] \/
  (reset_asserted (mkPins None None) = false /\
   enabled (mkPins None None) = true /\
   Bus.dv_alias (Bus.mk x00 None None (Some false)) = Some false /\
   exists f f',
     Some (GmiiFrame.mk [x07] (Some [0]) (Some 5)) = Some f /\
     GmiiFrame.compact f = Ok f' /\
     [GmiiFrame.mk [x07] None (Some 5)] = [] ++ [f'] /\
     @None GmiiFrame.t = None /\
     true = true).
Proof.
  apply (sink_enqueues_only_at_end_of_frame (mkPins None None) 6
           (GmiiSink.mk false [] false 0 0
              (Some (GmiiFrame.mk [x07] (Some [0]) (Some 5))))
           (Bus.mk x00 None None (Some false))
           (GmiiSink.mk false [GmiiFrame.mk [x07] None (Some 5)] true 1 1 None)).
  reflexivity.
Defined.

Lemma recv_n_drains q : forall s,
  GmiiSink.queue s = q ->
  exists s',
    recv_n (length q) s = (map Some q, s') /\
    GmiiSink.queue s' = [] /\
    GmiiSink.queue_occupancy_bytes s'
    = GmiiSink.queue_occupancy_bytes s - total_bytes q /\
    GmiiSink.queue_occupancy_frames s'
    = GmiiSink.queue_occupancy_frames s - Z.of_nat (length q).
Proof.
  induction q as [|f q IH]; intros s Hq.
  - exists s. simpl. repeat split; auto; lia.
  - cbn [recv_n length]. unfold GmiiSink.recv at 1. rewrite Hq.
    match goal with |- context [recv_n _ ?s1] =>
      destruct (IH s1 eq_refl) as [s' [Hn [Hq' [Hb Hf]]]]
    end.
    rewrite Hn. exists s'. split; [reflexivity|]. split; [exact Hq'|].
    cbn [GmiiSink.queue_occupancy_bytes GmiiSink.queue_occupancy_frames] in Hb, Hf.
    rewrite Hb, Hf. cbn [total_bytes fold_right]. fold (total_bytes q).
    split; lia.
Qed.

(** X13: in any state of a sink, as many [recv()] calls as the queue holds
    frames return these frames, oldest first, and leave the queue empty with
    both counters at 0; a further [recv()] returns [None] and changes
    nothing. *)
Theorem recv_drains_in_order (s : GmiiSink.t) :
  sink_reach s ->
  exists s',
    recv_n (length (GmiiSink.queue s)) s = (map Some (GmiiSink.queue s), s') /\
    GmiiSink.queue s' = [] /\
    GmiiSink.queue_occupancy_bytes s' = 0 /\
    GmiiSink.queue_occupancy_frames s' = 0 /\
    GmiiSink.recv s' = (None, s').
Proof.
  intros Hr. destruct (sink_reach_inv s Hr) as [_ [_ [_ [_ [Hb Hf]]]]].
  destruct (recv_n_drains (GmiiSink.queue s) s eq_refl)
    as [s' [Hn [Hq [Hb' Hf']]]].
  exists s'. split; [exact Hn|]. split; [exact Hq|].
  split; [lia|]. split; [lia|].
  unfold GmiiSink.recv. rewrite Hq. reflexivity.
Qed.

Lemma recv_drains_in_order_witness :
  exists s',
    recv_n 1 (GmiiSink.mk false [GmiiFrame.mk [x07] None (Some 5)] true 1 1 None)
    = ([Some (GmiiFrame.mk [x07] None (Some 5))], s') /\
    GmiiSink.queue s' = [] /\
    GmiiSink.queue_occupancy_bytes s' = 0 /\
    GmiiSink.queue_occupancy_frames s' = 0 /\
    GmiiSink.recv s' = (None, s').
Proof.
  apply (recv_drains_in_order
           (GmiiSink.mk false [GmiiFrame.mk [x07] None (Some 5)] true 1 1 None)).
  apply (sink_reach_step (mkPins None None) 6
           (Bus.mk x00 None None (Some false))
           (GmiiSink.mk false [] false 0 0
              (Some (GmiiFrame.mk [x07] (Some [0]) (Some 5))))).
  - apply (sink_reach_step (mkPins None None) 5
             (Bus.mk x07 None None (Some true)) GmiiSink.init).
    + apply sink_reach_init.
    + reflexivity.
  - reflexivity.
Defined.

(** * Further properties of a source and a sink on one bus *)

Lemma received_same_wires b b' f t :
  same_wires b b' -> received b' f t = received b f t.
Proof.
  intros [He _]. unfold received, sampled.
  assert (E : forall m, sampled_er b' m = sampled_er b m).
  { intros m. unfold sampled_er.
    destruct (Bus.er b) as [e|], (Bus.er b') as [e'|]; try reflexivity;
      destruct He as [He1 He2]; try discriminate (He1 eq_refl);
      discriminate (He2 eq_refl). }
  rewrite (map_ext _ _ E). reflexivity.
Qed.


(** From a source with nothing in flight and a sink that is not receiving,
    every queued frame arrives, in order. *)
Lemma run_delivers src b v0 snk ks n :
  GmiiSource.frame src = None ->
  GmiiSource.ifg_cnt src <= 0 ->
  Forall sendable (GmiiSource.queue src) ->
  Bus.en b = Some v0 ->
  GmiiSink.frame snk = None ->
  Forall System.quiet ks ->
  length ks
  = (wire_cycles (Z.to_nat (Z.max (GmiiSource.ifg src) 1)) (GmiiSource.queue src)
     + n)%nat ->
  exists src' b' snk' ts,
    System.run ks (src, b, snk) = Ok (src', b', snk') /\
    length ts = length (GmiiSource.queue src) /\
    GmiiSink.queue snk'
    = GmiiSink.queue snk
      ++ map (fun ft => received b (fst ft) (snd ft))
           (combine (GmiiSource.queue src) ts) /\
    GmiiSink.queue_occupancy_frames snk'
    = GmiiSink.queue_occupancy_frames snk
      + Z.of_nat (length (GmiiSource.queue src)) /\
    GmiiSink.queue_occupancy_bytes snk'
    = GmiiSink.queue_occupancy_bytes snk + total_bytes (GmiiSource.queue src) /\
    GmiiSource.queue src' = [] /\
    GmiiSource.queue_occupancy_frames src'
    = GmiiSource.queue_occupancy_frames src
      - Z.of_nat (length (GmiiSource.queue src)) /\
    GmiiSource.queue_occupancy_bytes src'
    = GmiiSource.queue_occupancy_bytes src - total_bytes (GmiiSource.queue src).
Proof.
  intros Hf Hc Hs Hen Hkf Hq Hlen.
  assert (Hqs : Forall quiet (map System.src_pins ks)).
  { apply Forall_map. eapply Forall_impl; [|exact Hq].
    intros k [H1 [H2 _]]. split; assumption. }
  assert (Hqk : Forall sink_quiet ks).
  { eapply Forall_impl; [|exact Hq].
    intros k [_ [_ [H3 H4]]]. split; assumption. }
  destruct (Z.to_nat (Z.max (GmiiSource.ifg src) 1)) as [|gap] eqn:Hgap; [lia|].
  destruct (split_cycles ks _ _ Hlen) as [ks1 [ks2 [E [L1 L2]]]]. subst ks.
  rewrite map_app in Hqs.
  apply Forall_app in Hqs. destruct Hqs as [Hqs1 Hqs2].
  apply Forall_app in Hqk. destruct Hqk as [Hqk1 Hqk2].
  destruct (run_frames (GmiiSource.queue src) src b v0 (map System.src_pins ks1))
    as [s1 [b1 [Hrun1 [Hw1 [F1 [C1 [Q1 [G1 [B1 N1]]]]]]]]];
    try assumption; try reflexivity.
  { rewrite length_map, Hgap. exact L1. }
  rewrite Hgap in Hrun1.
  destruct (same_wires_en _ _ _ Hw1 Hen) as [v1 Hen1].
  destruct (run_idle_keeps (map System.src_pins ks2) s1 b1 v1 F1 Q1 Hen1 Hqs2)
    as [s2 [b2 [Hrun2 [Hw2 [F2 [Q2 [G2 [B2 N2]]]]]]]].
  rewrite (idle_beat_same_wires _ _ Hw1), length_map in Hrun2.
  destruct (feed_wire b gap (GmiiSource.queue src) ks1 snk Hkf Hs Hqk1 L1)
    as [ts [k1 [Hts [Hfeed1 [Fk [Qk [_ [Bk Nk]]]]]]]].
  pose proof (feed_idle b (length ks2) ks2 k1 Fk Hqk2) as Hfeed2.
  exists s2, b2, k1, ts. split.
  - eapply system_run_split.
    + rewrite map_app. eapply run_app_ok; [exact Hrun1 | exact Hrun2].
    + eapply feed_app; [|exact Hfeed1|exact Hfeed2].
      rewrite wire_length. exact L1.
  - rewrite B2, N2. auto 10.
Qed.



(** X15: one cycle with reset asserted on both sides, whatever was in flight:
    the frame the source was sending and the frame the sink was assembling
    are dropped and never reach the sink's queue; the frames still queued at
    the source then arrive in order on the cycles that follow. *)
Theorem reset_flushes_both_sides src b v0 snk k ks n :
  reset_asserted (System.src_pins k) = true ->
  reset_asserted (System.snk_pins k) = true ->
  Forall sendable (GmiiSource.queue src) ->
  Forall bit_markers (GmiiSource.queue src) ->
  Bus.en b = Some v0 ->
  Forall System.quiet ks ->
  length ks
  = (wire_cycles (Z.to_nat (Z.max (GmiiSource.ifg src) 1)) (GmiiSource.queue src)
     + n)%nat ->
  exists src' b' snk' ts,
    System.run (k :: ks) (src, b, snk) = Ok (src', b', snk') /\
    length ts = length (GmiiSource.queue src) /\
    GmiiSink.queue snk'
    = GmiiSink.queue snk
      ++ map (fun ft => received b (fst ft) (snd ft))
           (combine (GmiiSource.queue src) ts) /\
    GmiiSource.queue src' = [].
Proof.
  intros Hrs Hrk Hs _ Hen Hq Hlen.
  pose proof (same_wires_beat b v0 false x00 0 Hen) as Hw.
  destruct (run_delivers
              (GmiiSource.mk false (GmiiSource.queue src) (GmiiSource.ifg src)
                 (GmiiSource.queue_occupancy_bytes src)
                 (GmiiSource.queue_occupancy_frames src) None 0)
              (idle_beat b) false
              (GmiiSink.mk false (GmiiSink.queue snk) (GmiiSink.sync snk)
                 (GmiiSink.queue_occupancy_bytes snk)
                 (GmiiSink.queue_occupancy_frames snk) None)
              ks n)
    as [src' [b' [snk' [ts [Hrun [Hts [Hqk [_ [_ [Hqs _]]]]]]]]]];
    try assumption; try reflexivity.
  exists src', b', snk', ts. split.
  - simpl. unfold GmiiSource.step, GmiiSink.step. rewrite Hrs, Hrk.
    unfold GmiiSource.on_reset.
    rewrite (drive_beat b v0 false x00 0 Hen). simpl. exact Hrun.
  - split; [exact Hts|]. split; [|exact Hqs].
    cbn [GmiiSink.queue GmiiSource.queue] in Hqk. rewrite Hqk.
    f_equal. apply map_ext. intros [f t]. apply received_same_wires, Hw.
Qed.

Lemma reset_flushes_both_sides_witness :
  exists src' b' snk' ts,
    System.run
      (System.mkTick (mkPins (Some true) None) (mkPins (Some true) None) 20
       :: repeat (System.mkTick (mkPins (Some false) None)
                    (mkPins (Some false) None) 21) 14)
      (GmiiSource.mk true [GmiiFrame.mk [x0a; x0b] None None] 12 2 1
         (Some (GmiiFrame.mk [x03; x04] (Some [0; 0]) None)) 0,
       Bus.mk x02 (Some 0) (Some true) None,
       GmiiSink.mk false [] false 0 0
         (Some (GmiiFrame.mk [x01; x02] (Some [0; 0]) (Some 18))))
    = Ok (src', b', snk') /\
    length ts = 1%nat /\
    GmiiSink.queue snk'
    = [] ++ map (fun ft => received (Bus.mk x02 (Some 0) (Some true) None)
                             (fst ft) (snd ft))
              (combine [GmiiFrame.mk [x0a; x0b] None None] ts) /\
    GmiiSource.queue src' = [].
Proof.
  apply (reset_flushes_both_sides
           (GmiiSource.mk true [GmiiFrame.mk [x0a; x0b] None None] 12 2 1
              (Some (GmiiFrame.mk [x03; x04] (Some [0; 0]) None)) 0)
           (Bus.mk x02 (Some 0) (Some true) None) true
           (GmiiSink.mk false [] false 0 0
              (Some (GmiiFrame.mk [x01; x02] (Some [0; 0]) (Some 18))))
           (System.mkTick (mkPins (Some true) None) (mkPins (Some true) None) 20)
           (repeat (System.mkTick (mkPins (Some false) None)
                      (mkPins (Some false) None) 21) 14) 0).
  - reflexivity.
  - reflexivity.
  - repeat constructor; discriminate.
  - list_facts.
  - reflexivity.
  - repeat constructor.
  - reflexivity.
Defined.

Lemma system_run_app ks1 : forall ks2 st,
  System.run (ks1 ++ ks2) st
  = (st1 <- System.run ks1 st ;; System.run ks2 st1).
Proof.
  induction ks1 as [|k ks1 IH]; intros ks2 st; simpl.
  - reflexivity.
  - destruct (System.cycle k st) as [st1|]; simpl; [apply IH | reflexivity].
Qed.

(** X16: cycles on which both the source and the sink have enable
    de-asserted (reset low), inserted anywhere in a run of the pair, do not
    change the state the pair ends in: nothing is driven, sampled, enqueued
    or lost during them. *)
Theorem joint_pause_is_transparent n kp ks1 ks2 st st2 :
  reset_asserted (System.src_pins kp) = false ->
  enabled (System.src_pins kp) = false ->
  reset_asserted (System.snk_pins kp) = false ->
  enabled (System.snk_pins kp) = false ->
  System.run (ks1 ++ ks2) st = Ok st2 ->
  System.run (ks1 ++ repeat kp n ++ ks2) st = Ok st2.
Proof.
  intros H1 H2 H3 H4. rewrite !system_run_app.
  destruct (System.run ks1 st) as [st1|]; simpl; [|discriminate].
  intros Hrun.
  assert (Hp : forall m s, System.run (repeat kp m) s = Ok s).
  { induction m as [|m IHm]; intros [[src b] snk]; [reflexivity|].
    simpl. unfold GmiiSource.step, GmiiSink.step.
    rewrite H1, H2, H3, H4. simpl. apply IHm. }
  rewrite system_run_app, Hp. simpl. exact Hrun.
Qed.

Lemma joint_pause_is_transparent_witness :
  System.run
    ([System.mkTick (mkPins None (Some true)) (mkPins None (Some true)) 1]
     ++ repeat (System.mkTick (mkPins None (Some false))
                  (mkPins None (Some false)) 2) 3
     ++ [System.mkTick (mkPins None (Some true)) (mkPins None (Some true)) 5;
         System.mkTick (mkPins None (Some true)) (mkPins None (Some true)) 6])
    (GmiiSource.send (GmiiFrame.OfBytes [x01; x02]) GmiiSource.init,
     Bus.mk x00 None (Some false) None, GmiiSink.init)
  = Ok (GmiiSource.mk false [] 12 0 0 None 11,
        Bus.mk x00 None (Some false) None,
        GmiiSink.mk false [GmiiFrame.mk [x01; x02] None (Some 1)] true 2 1 None).
Proof.
  apply (joint_pause_is_transparent 3
           (System.mkTick (mkPins None (Some false)) (mkPins None (Some false)) 2)
           [System.mkTick (mkPins None (Some true)) (mkPins None (Some true)) 1]
           [System.mkTick (mkPins None (Some true)) (mkPins None (Some true)) 5;
            System.mkTick (mkPins None (Some true)) (mkPins None (Some true)) 6]).
  - reflexivity.
  - reflexivity.
  - reflexivity.
  - reflexivity.
  - reflexivity.
Defined.

(** X17: while only the source is paused by its enable input, the byte it
    was sending stays on the bus with valid high, and a sink that is not
    paused appends that byte and its marker once more on every such cycle. *)
Theorem source_pause_repeats_byte_at_sink n kp src b snk pre zs t :
  reset_asserted (System.src_pins kp) = false ->
  enabled (System.src_pins kp) = false ->
  quiet (System.snk_pins kp) ->
  Bus.dv_alias b = Some true ->
  GmiiSink.frame snk = Some (GmiiFrame.mk pre (Some zs) t) ->
  System.run (repeat kp n) (src, b, snk)
  = Ok (src, b,
        GmiiSink.mk (GmiiSink.active snk) (GmiiSink.queue snk)
          (GmiiSink.sync snk) (GmiiSink.queue_occupancy_bytes snk)
          (GmiiSink.queue_occupancy_frames snk)
          (Some (GmiiFrame.mk
                   (pre ++ repeat (Bus.d b) n)
                   (Some (zs ++ repeat (match Bus.er b with
                                        | None => 0
                                        | Some v => v
                                        end) n))
                   t))).
Proof.
  intros H1 H2 [H3 H4] Hdv. revert snk pre zs.
  induction n as [|n IH]; intros snk pre zs Hf.
  - simpl. rewrite !app_nil_r, <- Hf. destruct snk; reflexivity.
  - cbn [repeat System.run System.cycle].
    unfold GmiiSource.step. rewrite H1, H2. simpl.
    unfold GmiiSink.step. rewrite H3, H4, Hdv.
    unfold GmiiSink.delimit. rewrite Hf. simpl.
    unfold GmiiSink.append. rewrite Hf. simpl.
    match goal with |- System.run _ (_, _, ?s1) = _ =>
      rewrite (IH s1 (pre ++ [Bus.d b])
                 (zs ++ [match Bus.er b with None => 0 | Some v => v end])
                 eq_refl)
    end.
    simpl. rewrite <- !app_assoc. reflexivity.
Qed.

Lemma source_pause_repeats_byte_at_sink_witness :
  System.run
    (repeat (System.mkTick (mkPins None (Some false)) (mkPins None None) 7) 2)
    (GmiiSource.mk true [] 12 0 0
       (Some (GmiiFrame.mk [x02] (Some [0]) None)) 0,
     Bus.mk x01 None (Some true) None,
     GmiiSink.mk false [] false 0 0
       (Some (GmiiFrame.mk [x01] (Some [0]) (Some 6))))
  = Ok (GmiiSource.mk true [] 12 0 0
          (Some (GmiiFrame.mk [x02] (Some [0]) None)) 0,
        Bus.mk x01 None (Some true) None,
        GmiiSink.mk false [] false 0 0
          (Some (GmiiFrame.mk [x01; x01; x01] (Some [0; 0; 0]) (Some 6)))).
Proof.
  apply (source_pause_repeats_byte_at_sink 2
           (System.mkTick (mkPins None (Some false)) (mkPins None None) 7)
           (GmiiSource.mk true [] 12 0 0
              (Some (GmiiFrame.mk [x02] (Some [0]) None)) 0)
           (Bus.mk x01 None (Some true) None)
           (GmiiSink.mk false [] false 0 0
              (Some (GmiiFrame.mk [x01] (Some [0]) (Some 6))))
           [x01] [0] (Some 6)).
  - reflexivity.
  - reflexivity.
  - split; reflexivity.
  - reflexivity.
  - reflexivity.
Defined.

(** X18: reset asserted on the source alone while a frame is on the wire:
    the source drops the rest of the frame and drives valid low, and the
    sink, which is not in reset, takes that as the end of the frame and
    enqueues the bytes received so far as a frame of its own. *)
Theorem source_reset_truncates_frame_at_sink k src b v0 snk pre zs t :
  reset_asserted (System.src_pins k) = true ->
  quiet (System.snk_pins k) ->
  Bus.en b = Some v0 ->
  GmiiSink.frame snk = Some (GmiiFrame.mk pre (Some zs) t) ->
  System.cycle k (src, b, snk)
  = Ok (GmiiSource.mk false (GmiiSource.queue src) (GmiiSource.ifg src)
          (GmiiSource.queue_occupancy_bytes src)
          (GmiiSource.queue_occupancy_frames src) None 0,
        idle_beat b,
        GmiiSink.mk (GmiiSink.active snk)
          (GmiiSink.queue snk
           ++ [GmiiFrame.mk pre (if any zs then Some zs else None) t])
          true
          (GmiiSink.queue_occupancy_bytes snk + Z.of_nat (length pre))
          (GmiiSink.queue_occupancy_frames snk + 1)
          None).
Proof.
  intros Hr Hq Hen Hf. unfold System.cycle, GmiiSource.step. rewrite Hr.
  unfold GmiiSource.on_reset. rewrite (drive_beat b v0 false x00 0 Hen).
  cbn [bind]. fold (idle_beat b).
  rewrite (sink_step_end_any _ (System.now k) snk b pre zs t Hq Hf).
  reflexivity.
Qed.

Lemma source_reset_truncates_frame_at_sink_witness :
  System.cycle
    (System.mkTick (mkPins (Some true) None) (mkPins None None) 9)
    (GmiiSource.mk true [] 12 0 0
       (Some (GmiiFrame.mk [x03; x04] (Some [0; 0]) None)) 0,
     Bus.mk x02 (Some 0) (Some true) None,
     GmiiSink.mk false [] false 0 0
       (Some (GmiiFrame.mk [x01; x02] (Some [0; 0]) (Some 7))))
  = Ok (GmiiSource.mk false [] 12 0 0 None 0,
        Bus.mk x00 (Some 0) (Some false) None,
        GmiiSink.mk false [GmiiFrame.mk [x01; x02] None (Some 7)] true
          (0 + 2) (0 + 1) None).
Proof.
  apply (source_reset_truncates_frame_at_sink
           (System.mkTick (mkPins (Some true) None) (mkPins None None) 9)
           (GmiiSource.mk true [] 12 0 0
              (Some (GmiiFrame.mk [x03; x04] (Some [0; 0]) None)) 0)
           (Bus.mk x02 (Some 0) (Some true) None) true
           (GmiiSink.mk false [] false 0 0
              (Some (GmiiFrame.mk [x01; x02] (Some [0; 0]) (Some 7))))
           [x01; x02] [0; 0] (Some 7)).
  - reflexivity.
  - split; reflexivity.
  - reflexivity.
  - reflexivity.
Defined.
